(** * Kernels and Gram matrices ([kernel.cpp])

    A shallow embedding of [kernel::gram_matrix], [kernel::gram_matrix_stable]
    and of the three kernels [linear_kernel], [polynomial_kernel] and
    [gaussian_kernel], together with the properties the specification states
    about them.

    - A C++ [double] is a binary64 primitive float; [==] on doubles is
      [PrimFloat.eqb] (so [nan == nan] is false and [-0 == 0] is true).
    - An Eigen [MatrixXd] is a record of its dimensions and of its
      column-major coefficient storage.
    - A member function is a computation in a state-and-exception monad over
      the kernel object it is called on: it may read or write the
      hyperparameters of [this], return, throw [std::invalid_argument], or
      violate an [eigen_assert].
    - [exp] and [pow] of [<cmath>] are parameters of the development.
    - An Eigen reduction ([sum], the inner product) visits the coefficients
      in index order, and an expression is evaluated as written, one
      rounding per operation (no contraction into a fused multiply-add).
    - A [Map<MatrixXd>&] argument is the address of a buffer in the
      caller's memory; the two overloads that take such arguments are
      computations over that memory and the kernel object. *)

From Stdlib Require Import ZArith Lia Bool String Floats.
From stdpp Require Import base tactics list list_numbers.

Local Open Scope Z_scope.

(** ** Exceptions and member functions *)

(** What a call can end with other than a value. The two [eigen_assert]
    failures abort the program (or are undefined behaviour when the
    assertions are compiled out). *)
Inductive exn : Type :=
  | invalid_argument (what : string)
  | index_out_of_range   (* eigen_assert on a coefficient or column index *)
  | size_mismatch.       (* eigen_assert on the sizes of operands or of a new matrix *)

Inductive outcome (A : Type) : Type :=
  | Ok (a : A)
  | Throw (e : exn).
Arguments Ok {A} a.
Arguments Throw {A} e.

(** A kernel object: its dynamic type and its hyperparameters. *)
Inductive kernel : Type :=
  | linear_kernel (_c : float)
  | polynomial_kernel (_a _c _d : float)
  | gaussian_kernel (_s : float).

(** A member function called on [this]: its outcome and the object after
    the call. *)
Definition method (A : Type) : Type := kernel -> outcome A * kernel.

Definition ret {A} (a : A) : method A := fun this => (Ok a, this).
Definition throw {A} (e : exn) : method A := fun this => (Throw e, this).
Definition get_this : method kernel := fun this => (Ok this, this).
Definition set_this (new : kernel) : method unit := fun _ => (Ok tt, new).
Definition bind {A B} (m : method A) (f : A -> method B) : method B :=
  fun this =>
    match m this with
    | (Ok a, this') => f a this'
    | (Throw e, this') => (Throw e, this')
    end.

Notation "x <- m ;; f" := (bind m (fun x => f))
  (at level 100, m at next level, right associativity).

(** [m] called on [this] returns [a] and leaves the object as it was. *)
Definition returns {A} (m : method A) (this : kernel) (a : A) : Prop :=
  m this = (Ok a, this).

(** [for (int i = lo; i < lo + n; ++i) s = body(i, s);] *)
Fixpoint for_loop {T} (n : nat) (i : Z) (body : Z -> T -> method T) (s : T)
  : method T :=
  match n with
  | O => ret s
  | S n' => s' <- body i s ;; for_loop n' (i + 1) body s'
  end.

Definition for_int {T} (lo hi : Z) (body : Z -> T -> method T) (s : T)
  : method T :=
  for_loop (Z.to_nat (hi - lo)) lo body s.

(** Conversion of an [Index] (64 bits) to [int] (32 bits). *)
Definition INT_MAX : Z := 2147483647.
Definition to_int (z : Z) : Z := (z + 2 ^ 31) mod 2 ^ 32 - 2 ^ 31.

(** ** Dense vectors and matrices *)

Definition VectorXd : Type := list float.

Record MatrixXd : Type := mkMatrix {
  rows : Z;
  cols : Z;
  data : list float  (* column-major: coefficient (i,j) at i + j * rows *)
}.

Definition size (A : MatrixXd) : Z := rows A * cols A.

(** The matrices Eigen can hold. *)
Definition wf (A : MatrixXd) : Prop :=
  0 <= rows A /\ 0 <= cols A /\ Z.of_nat (length (data A)) = rows A * cols A.

(** [MatrixXd(r, c)]: coefficients are not initialised; [nan] stands for
    the indeterminate content. *)
Definition MatrixXd_new (r c : Z) : method MatrixXd :=
  if (0 <=? r) && (0 <=? c)
  then ret (mkMatrix r c (replicate (Z.to_nat (r * c)) nan))
  else throw size_mismatch.

(** [A(i, j)] read. *)
Definition coeff (A : MatrixXd) (i j : Z) : method float :=
  if (0 <=? i) && (i <? rows A) && (0 <=? j) && (j <? cols A) then
    match data A !! Z.to_nat (i + j * rows A) with
    | Some v => ret v
    | None => throw index_out_of_range
    end
  else throw index_out_of_range.

(** [A(i, j) = v]. *)
Definition set_coeff (A : MatrixXd) (i j : Z) (v : float) : method MatrixXd :=
  if (0 <=? i) && (i <? rows A) && (0 <=? j) && (j <? cols A) then
    ret (mkMatrix (rows A) (cols A) (<[Z.to_nat (i + j * rows A) := v]> (data A)))
  else throw index_out_of_range.

(** [A(p)] read, by index into the storage. *)
Definition coeff_linear (A : MatrixXd) (p : Z) : method float :=
  if (0 <=? p) && (p <? size A) then
    match data A !! Z.to_nat p with
    | Some v => ret v
    | None => throw index_out_of_range
    end
  else throw index_out_of_range.

(** [A(p) = v]. *)
Definition set_coeff_linear (A : MatrixXd) (p : Z) (v : float) : method MatrixXd :=
  if (0 <=? p) && (p <? size A) then
    ret (mkMatrix (rows A) (cols A) (<[Z.to_nat p := v]> (data A)))
  else throw index_out_of_range.

(** The coefficients of column [j], unchecked. *)
Definition column (A : MatrixXd) (j : Z) : VectorXd :=
  take (Z.to_nat (rows A)) (drop (Z.to_nat (j * rows A)) (data A)).

(** [A.col(j)]. *)
Definition col (A : MatrixXd) (j : Z) : method VectorXd :=
  if (0 <=? j) && (j <? cols A) then ret (column A j)
  else throw index_out_of_range.

(** [MatrixXd::Identity(r, c)]: one where the row and the column index
    agree, zero elsewhere. *)
Definition Identity (r c : Z) : MatrixXd :=
  mkMatrix r c
    ((fun p => if p mod r =? p / r then 1%float else 0%float) <$> seqZ 0 (r * c)).

(** [s * A]. *)
Definition scalar_times (s : float) (A : MatrixXd) : MatrixXd :=
  mkMatrix (rows A) (cols A) ((fun v => (s * v)%float) <$> data A).

(** [A + B]. *)
Definition plus (A B : MatrixXd) : method MatrixXd :=
  if (rows A =? rows B) && (cols A =? cols B)
  then ret (mkMatrix (rows A) (cols A) (zip_with PrimFloat.add (data A) (data B)))
  else throw size_mismatch.

(** [v.sum()], in Eigen's scalar traversal: zero for the empty vector,
    otherwise the first coefficient with the others added in index order. *)
Definition sum (v : VectorXd) : float :=
  match v with
  | [] => 0%float
  | a :: v' => fold_left PrimFloat.add v' a
  end.

(** [x.transpose() * y]: the inner product. *)
Definition inner_product (x y : VectorXd) : method float :=
  if (length x =? length y)%nat then ret (sum (zip_with PrimFloat.mul x y))
  else throw size_mismatch.

(** [x - y]. *)
Definition difference (x y : VectorXd) : method VectorXd :=
  if (length x =? length y)%nat then ret (zip_with PrimFloat.sub x y)
  else throw size_mismatch.

(** [v.array().square()]. *)
Definition square (v : VectorXd) : VectorXd := (fun a => (a * a)%float) <$> v.

(** ** The kernels *)

(** The two functions of [<cmath>] the kernels call. *)
Record libm : Type := { exp : float -> float; pow : float -> float -> float }.

Set Warnings "-inexact-float".

Section Kernel.

Variable cmath : libm.

(** [linear_kernel::k], [polynomial_kernel::k] and [gaussian_kernel::k],
    selected by the dynamic type of [this]. *)
Definition k (x_i y_j : VectorXd) : method float :=
  this <- get_this ;;
  match this with
  | linear_kernel _c =>
      xy <- inner_product x_i y_j ;;
      ret (xy + _c)%float
  | polynomial_kernel _a _c _d =>
      dot <- inner_product x_i y_j ;;
      let base := (_a * dot + _c)%float in
      ret (pow cmath base _d)
  | gaussian_kernel _s =>
      d <- difference x_i y_j ;;
      ret (exp cmath (-1 * sum (square d) / (2 * _s * _s))%float)
  end.

Definition gram_matrix (X Y : MatrixXd) : method MatrixXd :=
  if negb (rows X =? rows Y) then
    throw (invalid_argument
      "to compute a Gram Matrix both input matrices must have the same number of rows.")
  else
    let M := to_int (cols X) in
    let N := to_int (cols Y) in
    result <- MatrixXd_new M N ;;
    for_int 0 M (fun i result =>
      for_int 0 N (fun j result =>
        x_i <- col X i ;;
        y_j <- col Y j ;;
        v <- k x_i y_j ;;
        set_coeff result i j v) result) result.

Definition gram_matrix_stable (X Y : MatrixXd) : method MatrixXd :=
  let stability := 1e-3%float in
  result <- gram_matrix X Y ;;
  is_unit <- (if size result =? 1
              then v <- coeff result 0 0 ;; ret (v =? 1)%float
              else ret false) ;;
  if is_unit then
    v <- coeff result 0 0 ;;
    set_coeff result 0 0 (v + stability)%float
  else if (1 <? rows result) && (1 <? cols result) then
    plus result (scalar_times stability (Identity (cols X) (cols Y)))
  else
    last_is_one <- (if (cols result =? 1) || (rows result =? 1)
                    then v <- coeff_linear result (size result - 1) ;;
                         ret (v =? 1)%float
                    else ret false) ;;
    if last_is_one then
      v <- coeff_linear result (size result - 1) ;;
      set_coeff_linear result (size result - 1) (v + stability)%float
    else ret result.

(** The value [k] returns on two vectors of one length. *)
Definition k_value (this : kernel) (x y : VectorXd) : float :=
  match this with
  | linear_kernel _c => (sum (zip_with PrimFloat.mul x y) + _c)%float
  | polynomial_kernel _a _c _d =>
      pow cmath (_a * sum (zip_with PrimFloat.mul x y) + _c)%float _d
  | gaussian_kernel _s =>
      exp cmath
        (-1 * sum (square (zip_with PrimFloat.sub x y)) / (2 * _s * _s))%float
  end.

(** [G] holds the kernel of the columns of [X] and [Y] at every cell
    selected by [P]. *)
Definition filled (this : kernel) (X Y : MatrixXd) (P : Z -> Z -> Prop)
    (G : MatrixXd) : Prop :=
  rows G = cols X /\ cols G = cols Y /\ wf G /\
  forall i j, 0 <= i < cols X -> 0 <= j < cols Y -> P i j ->
    data G !! Z.to_nat (i + j * cols X)
    = Some (k_value this (column X i) (column Y j)).

Definition is_gram (this : kernel) (X Y G : MatrixXd) : Prop :=
  filled this X Y (fun _ _ => True) G.

End Kernel.

(** The constructors: each initialises the hyperparameters of the object
    it is called on.
    [linear_kernel::linear_kernel(double c) : _c(c)],
    [polynomial_kernel::polynomial_kernel(double a, double c, double d)] and
    [gaussian_kernel::gaussian_kernel(double s)]. *)
Definition linear_kernel_ctor (c : float) : method unit :=
  set_this (linear_kernel c).

Definition polynomial_kernel_ctor (a c d : float) : method unit :=
  set_this (polynomial_kernel a c d).

Definition gaussian_kernel_ctor (s : float) : method unit :=
  set_this (gaussian_kernel s).

(** ** The overloads on mapped buffers *)

(** [Map<MatrixXd>]: a view of a buffer of doubles as a matrix. *)
Record Map_MatrixXd : Type := mkMap {
  map_rows : Z;
  map_cols : Z;
  map_data : list float
}.

(** [MatrixXd(X)] for a map [X]: a copy of the mapped coefficients. *)
Definition MatrixXd_of_Map (X : Map_MatrixXd) : MatrixXd :=
  mkMatrix (map_rows X) (map_cols X) (map_data X).

(** What a call can reach of the caller's memory: the kernel object it is
    called on, and the mapped buffers, by address. *)
Record memory : Type := mkMemory {
  object : kernel;
  mapped : nat -> Map_MatrixXd
}.

(** A call that may read and write that memory. *)
Definition call (A : Type) : Type := memory -> outcome A * memory.

Definition call_bind {A B} (c : call A) (f : A -> call B) : call B :=
  fun mem =>
    match c mem with
    | (Ok a, mem') => f a mem'
    | (Throw e, mem') => (Throw e, mem')
    end.

(** A member function, run on the kernel object of the memory. *)
Definition on_object {A} (m : method A) : call A :=
  fun mem =>
    let (r, this') := m (object mem) in
    (r, mkMemory this' (mapped mem)).

(** [MatrixXd(X)] for [Map<MatrixXd>& X]. *)
Definition copy_Map (X : nat) : call MatrixXd :=
  fun mem => (Ok (MatrixXd_of_Map (mapped mem X)), mem).

(** [X(i, j) = v] for [Map<MatrixXd>& X]: the write such a parameter
    allows. No function of [kernel.cpp] performs it. *)
Definition write_Map (X : nat) (i j : Z) (v : float) : call unit :=
  fun mem =>
    let A := mapped mem X in
    if (0 <=? i) && (i <? map_rows A) && (0 <=? j) && (j <? map_cols A) then
      let A' := mkMap (map_rows A) (map_cols A)
                  (<[Z.to_nat (i + j * map_rows A) := v]> (map_data A)) in
      (Ok tt,
       mkMemory (object mem) (fun a => if (a =? X)%nat then A' else mapped mem a))
    else (Throw index_out_of_range, mem).

Section Overloads.

Variable cmath : libm.

(** [kernel::gram_matrix(Map<MatrixXd>&, Map<MatrixXd>&)]. *)
Definition gram_matrix_Map (X Y : nat) : call MatrixXd :=
  call_bind (copy_Map X) (fun x =>
  call_bind (copy_Map Y) (fun y =>
  on_object (gram_matrix cmath x y))).

(** [kernel::gram_matrix_stable(Map<MatrixXd>&, Map<MatrixXd>&)]. *)
Definition gram_matrix_stable_Map (X Y : nat) : call MatrixXd :=
  call_bind (copy_Map X) (fun x =>
  call_bind (copy_Map Y) (fun y =>
  on_object (gram_matrix_stable cmath x y))).

End Overloads.

(** A polynomial stand-in for [exp] and a stand-in for [pow] on small
    natural exponents, to run the kernels on concrete inputs. *)
Definition exp_taylor (x : float) : float :=
  fold_right (fun n acc => (1 + x / n * acc)%float) 1%float
    [1; 2; 3; 4; 5; 6; 7; 8; 9; 10; 11; 12; 13; 14; 15; 16; 17; 18]%float.

Definition pow_small (b d : float) : float :=
  if (d =? 0)%float then 1%float
  else if (d =? 1)%float then b
  else if (d =? 2)%float then (b * b)%float
  else if (d =? 3)%float then (b * b * b)%float
  else nan.

Definition cmath_ref : libm := {| exp := exp_taylor; pow := pow_small |}.

(** [[1,0],[0,1]]: two orthonormal vectors as columns. *)
Definition X_id2 : MatrixXd := mkMatrix 2 2 [1; 0; 0; 1]%float.

(** Three points of the plane as columns. *)
Definition X_23 : MatrixXd := mkMatrix 2 3 [1; 2; 3; 4; 5; 6]%float.

(** One point of the plane. *)
Definition X_21 : MatrixXd := mkMatrix 2 1 [0; 1]%float.

(** An empty data set of the plane. *)
Definition X_20 : MatrixXd := mkMatrix 2 0 [].

(** ** What the properties are stated with *)

(** [same_value x y]: [x] and [y] denote the same number (a negative and a
    positive zero are the same number), or both are [nan]. *)
Definition same_value (x y : float) : Prop :=
  x = y \/ (x =? y)%float = true.

(** The dot product as the specification writes it: the products of the
    coordinates, summed over the indices in increasing order. *)
Fixpoint dot_product_upto (x y : VectorXd) (n : nat) : float :=
  match n with
  | O => (nth 0 x 0 * nth 0 y 0)%float
  | S n' => (dot_product_upto x y n' + nth (S n') x 0 * nth (S n') y 0)%float
  end.

Definition dot_product (x y : VectorXd) : float :=
  match length x with
  | O => 0%float
  | S n => dot_product_upto x y n
  end.

Definition mismatch : exn :=
  invalid_argument
    "to compute a Gram Matrix both input matrices must have the same number of rows.".

(** The coefficient [(i,j)] of a stabilised [M] x [N] Gram matrix, from the
    coefficient [g] of the Gram matrix: [1e-3] times the identity pattern
    is added when there is more than one row and more than one column;
    otherwise [1e-3] is added to the last coefficient if it [== 1]. *)
Definition stabilised (M N i j : Z) (g : float) : float :=
  if (1 <? M) && (1 <? N) then
    (g + 1e-3 * (if (i =? j)%Z then 1 else 0))%float
  else if (i + j * M =? M * N - 1) && (g =? 1)%float then (g + 1e-3)%float
  else g.

(** The shapes of an empty row or an empty column. *)
Definition empty_vector_shape (M N : Z) : Prop :=
  (M = 0 /\ N = 1) \/ (M = 1 /\ N = 0).

(** [m] leaves the kernel object as it was, whatever its outcome. *)
Definition preserves_this {A} (m : method A) : Prop :=
  forall this, snd (m this) = this.

(** Two calls in a row: both outcomes, and the object after the second. *)
Definition twice {A} (m : method A) (this : kernel)
  : outcome A * outcome A * kernel :=
  let (r1, this1) := m this in
  let (r2, this2) := m this1 in
  (r1, r2, this2).

(** The same for a call over the memory. *)
Definition call_twice {A} (c : call A) (mem : memory)
  : outcome A * outcome A * memory :=
  let (r1, mem1) := c mem in
  let (r2, mem2) := c mem1 in
  (r1, r2, mem2).

(** * Lemmas *)

(** ** Binary64 arithmetic *)

Module F64.

Lemma Prim2SF_zero : Prim2SF 0%float = S754_zero false.
Proof. reflexivity. Qed.

Lemma Prim2SF_neg_zero : Prim2SF (-0)%float = S754_zero true.
Proof. reflexivity. Qed.

Lemma Prim2SF_infinity : Prim2SF infinity = S754_infinity false.
Proof. reflexivity. Qed.

(** A finite double is a zero or a finite non-zero number. *)
Lemma is_finite_SF (x : float) :
  is_finite x = true ->
  (exists s, Prim2SF x = S754_zero s) \/
  (exists s m e, Prim2SF x = S754_finite s m e).
Proof.
  unfold is_finite, is_nan, is_infinity.
  rewrite !FloatAxioms.eqb_spec, abs_spec, Prim2SF_infinity.
  destruct (Prim2SF x) as [s|s| |s m e]; simpl; intros H.
  - left; eauto.
  - destruct s; discriminate.
  - discriminate.
  - right; eauto.
Qed.

Lemma mul_comm (x y : float) : (x * y)%float = (y * x)%float.
Proof.
  apply Prim2SF_inj. rewrite !mul_spec.
  destruct (Prim2SF x) as [sx|sx| |sx mx ex], (Prim2SF y) as [sy|sy| |sy my ey];
    simpl; try reflexivity; try (rewrite xorb_comm; reflexivity).
  unfold SF64mul; simpl.
  rewrite xorb_comm, Pos.mul_comm, Z.add_comm. reflexivity.
Qed.

Lemma sub_diag (x : float) : is_finite x = true -> (x - x)%float = 0%float.
Proof.
  intros H. apply Prim2SF_inj. rewrite sub_spec, Prim2SF_zero.
  destruct (is_finite_SF x H) as [[s ->]|(s & m & e & ->)].
  - destruct s; reflexivity.
  - unfold SF64sub, SFsub. rewrite Z.sub_diag. reflexivity.
Qed.

(** Adding [+0] leaves every double alone, except that [-0] becomes [+0]. *)
Lemma add_zero_r (x : float) :
  (x + 0)%float = x \/ (x = (-0)%float /\ (x + 0)%float = 0%float).
Proof.
  destruct (Prim2SF x) as [s|s| |s m e] eqn:E.
  - destruct s.
    + right. assert (x = (-0)%float) as ->
        by (apply Prim2SF_inj; rewrite E; reflexivity).
      split; reflexivity.
    + left. apply Prim2SF_inj. rewrite add_spec, E. reflexivity.
  - left. apply Prim2SF_inj. rewrite add_spec, E. reflexivity.
  - left. apply Prim2SF_inj. rewrite add_spec, E. reflexivity.
  - left. apply Prim2SF_inj. rewrite add_spec, E. reflexivity.
Qed.

Lemma add_zero_r_same (x : float) : same_value (x + 0)%float x.
Proof.
  destruct (add_zero_r x) as [->|[-> ->]]; [now left|now right].
Qed.

(** Two doubles have the same value when they are the same double or the
    two zeros. *)
Lemma same_value_spec (x y : float) :
  same_value x y <->
  x = y \/ (x = 0%float /\ y = (-0)%float) \/ (x = (-0)%float /\ y = 0%float).
Proof.
  split.
  - intros [E|E]; [now left|].
    rewrite FloatAxioms.eqb_spec in E. unfold SFeqb, SFcompare in E.
    destruct (Prim2SF x) as [sx|sx| |sx mx ex] eqn:Ex,
             (Prim2SF y) as [sy|sy| |sy my ey] eqn:Ey;
      try discriminate;
      try (destruct sx; discriminate); try (destruct sy; discriminate).
    + apply (f_equal SF2Prim) in Ex, Ey. rewrite SF2Prim_Prim2SF in Ex, Ey.
      subst x y. destruct sx, sy; simpl; auto.
    + left. apply Prim2SF_inj. rewrite Ex, Ey.
      destruct sx, sy; try discriminate; reflexivity.
    + left. apply Prim2SF_inj. rewrite Ex, Ey.
      change (Pos.compare_cont Eq mx my) with (Pos.compare mx my) in E.
      destruct sx, sy; try discriminate;
        destruct (Z.compare_spec ex ey) as [->| |]; try discriminate;
        destruct (Pos.compare_spec mx my) as [->| |];
        try discriminate; reflexivity.
  - intros [E|[[-> ->]|[-> ->]]]; [now left|now right|now right].
Qed.

(** [-0 / d] is [-0] for every strictly positive [d], infinite or not. *)
Lemma neg_zero_div_pos (d : float) :
  (0 <? d)%float = true -> (-0 / d)%float = (-0)%float.
Proof.
  rewrite FloatAxioms.ltb_spec, Prim2SF_zero. intros H.
  apply Prim2SF_inj. rewrite div_spec, Prim2SF_neg_zero.
  destruct (Prim2SF d) as [s|s| |s m e]; simpl in *;
    try discriminate; destruct s; try discriminate; reflexivity.
Qed.

(** The sign of a difference is the only thing that depends on the order
    of its operands. *)
Lemma binary_round_aux_abs prec emax s s' m e l :
  SFabs (binary_round_aux prec emax s m e l) =
  SFabs (binary_round_aux prec emax s' m e l).
Proof.
  unfold binary_round_aux.
  destruct (shr_fexp prec emax m e l) as [mrs e1].
  destruct (shr_fexp prec emax _ e1 loc_Exact) as [mrs2 e2].
  destruct (shr_m mrs2); try reflexivity.
  destruct (Z.leb e2 (emax - prec)); reflexivity.
Qed.

Lemma binary_normalize_opp_abs prec emax z e b :
  SFabs (binary_normalize prec emax (- z) e b) =
  SFabs (binary_normalize prec emax z e b).
Proof.
  destruct z as [|p|p]; simpl; try reflexivity;
    unfold binary_round;
    destruct (shl_align _ _ _) as [mz ez]; apply binary_round_aux_abs.
Qed.

Lemma SFsub_abs_sym (x y : spec_float) :
  SFabs (SF64sub x y) = SFabs (SF64sub y x).
Proof.
  destruct x as [sx|sx| |sx mx ex], y as [sy|sy| |sy my ey];
    try reflexivity;
    try (destruct sx, sy; reflexivity).
  unfold SF64sub, SFsub.
  rewrite <- binary_normalize_opp_abs.
  rewrite Z.opp_sub_distr, Z.add_comm, Z.add_opp_r, (Z.min_comm ey ex).
  reflexivity.
Qed.

Lemma SFmul_abs_self (x : spec_float) :
  SF64mul x x = SF64mul (SFabs x) (SFabs x).
Proof.
  destruct x as [s|s| |s m e]; try reflexivity; destruct s; reflexivity.
Qed.

Lemma square_sub_sym (x y : float) :
  ((x - y) * (x - y))%float = ((y - x) * (y - x))%float.
Proof.
  apply Prim2SF_inj. rewrite !mul_spec, !sub_spec.
  rewrite (SFmul_abs_self (SF64sub (Prim2SF x) _)).
  rewrite (SFmul_abs_self (SF64sub (Prim2SF y) _)).
  rewrite (SFsub_abs_sym (Prim2SF x)). reflexivity.
Qed.

End F64.


(** ** Running member functions *)

Lemma bind_returns {A B} (m : method A) (f : A -> method B) this a :
  returns m this a -> bind m f this = f a this.
Proof. unfold returns, bind. intros ->. reflexivity. Qed.

Lemma bind_throws {A B} (m : method A) (f : A -> method B) this e :
  m this = (Throw e, this) -> bind m f this = (Throw e, this).
Proof. unfold bind. intros ->. reflexivity. Qed.

(** A loop whose body returns and re-establishes [I] returns, and [I] holds
    when it exits. *)
Lemma for_loop_returns {T} (I : Z -> T -> Prop) (body : Z -> T -> method T)
    this n lo s :
  I lo s ->
  (forall i s, lo <= i < lo + Z.of_nat n -> I i s ->
     exists s', returns (body i s) this s' /\ I (i + 1) s') ->
  exists s', returns (for_loop n lo body s) this s' /\ I (lo + Z.of_nat n) s'.
Proof.
  revert lo s. induction n as [|n IH]; intros lo s H0 Hbody.
  - exists s. split; [reflexivity|]. now replace (lo + Z.of_nat 0) with lo by lia.
  - destruct (Hbody lo s ltac:(lia) H0) as (s1 & Hs1 & HI1).
    destruct (IH (lo + 1) s1 HI1) as (s2 & Hs2 & HI2).
    { intros i s' Hi. apply Hbody. lia. }
    exists s2. split.
    + unfold returns. simpl. rewrite (bind_returns _ _ _ _ Hs1). exact Hs2.
    + now replace (lo + Z.of_nat (S n)) with (lo + 1 + Z.of_nat n) by lia.
Qed.

Lemma for_int_returns {T} (I : Z -> T -> Prop) (body : Z -> T -> method T)
    this hi s :
  0 <= hi ->
  I 0 s ->
  (forall i s, 0 <= i < hi -> I i s ->
     exists s', returns (body i s) this s' /\ I (i + 1) s') ->
  exists s', returns (for_int 0 hi body s) this s' /\ I hi s'.
Proof.
  intros Hhi H0 Hbody. unfold for_int.
  destruct (for_loop_returns I body this (Z.to_nat (hi - 0)) 0 s H0)
    as (s' & Hs' & HI).
  { intros i s' Hi. apply Hbody. lia. }
  exists s'. split; [assumption|].
  now replace (0 + Z.of_nat (Z.to_nat (hi - 0))) with hi in HI by lia.
Qed.

Lemma to_int_small z : 0 <= z <= INT_MAX -> to_int z = z.
Proof.
  unfold to_int, INT_MAX. intros H.
  change (2 ^ 31) with 2147483648. change (2 ^ 32) with 4294967296.
  rewrite Z.mod_small; lia.
Qed.

(** ** Storage indices *)

Lemma index_lt i j r c : 0 <= i < r -> 0 <= j < c -> 0 <= i + j * r < r * c.
Proof. nia. Qed.

Lemma index_mod i j r : 0 <= i < r -> (i + j * r) mod r = i.
Proof. intros. rewrite Z.mod_add by lia. apply Z.mod_small. lia. Qed.

Lemma index_div i j r : 0 <= i < r -> (i + j * r) / r = j.
Proof. intros. rewrite Z.div_add by lia. rewrite Z.div_small; lia. Qed.

Lemma index_inj i j i' j' r :
  0 <= i < r -> 0 <= i' < r ->
  i + j * r = i' + j' * r -> i = i' /\ j = j'.
Proof.
  intros Hi Hi' E.
  assert (i = i') as <-.
  { rewrite <- (index_mod i j r Hi), E. now apply index_mod. }
  split; [reflexivity|]. nia.
Qed.

Lemma length_column A j :
  wf A -> 0 <= j < cols A -> length (column A j) = Z.to_nat (rows A).
Proof.
  intros (Hr & Hc & Hlen) Hj. unfold column.
  rewrite length_take, length_drop. nia.
Qed.

(** ** What the kernels and [gram_matrix] compute *)

Section Gram.

Variable cmath : libm.

Lemma k_returns this x y :
  length x = length y -> returns (k cmath x y) this (k_value cmath this x y).
Proof.
  intros E. unfold returns, k, bind, get_this, inner_product, difference.
  destruct this; rewrite E, Nat.eqb_refl; reflexivity.
Qed.

Lemma filled_weaken this X Y (P Q : Z -> Z -> Prop) G :
  (forall i j, 0 <= i < cols X -> 0 <= j < cols Y -> Q i j -> P i j) ->
  filled cmath this X Y P G -> filled cmath this X Y Q G.
Proof.
  intros HPQ (Hr & Hc & Hwf & Hcells).
  split; [|split; [|split]]; try assumption.
  intros i j Hi Hj HQ. apply Hcells; auto.
Qed.

(** One iteration of the inner loop fills cell [(i, j)] and no other. *)
Lemma body_fills this X Y P G i j :
  wf X -> wf Y -> rows X = rows Y ->
  0 <= i < cols X -> 0 <= j < cols Y ->
  filled cmath this X Y P G ->
  exists G',
    returns (x_i <- col X i ;; y_j <- col Y j ;; v <- k cmath x_i y_j ;;
             set_coeff G i j v) this G'
    /\ filled cmath this X Y (fun i' j' => P i' j' \/ (i' = i /\ j' = j)) G'.
Proof.
  intros HX HY Hrows Hi Hj (Hr & Hc & (Hr0 & Hc0 & Hlen) & Hcells).
  eexists. split.
  - unfold returns, bind at 1, col.
    replace ((0 <=? i) && (i <? cols X)) with true by lia. unfold ret at 1.
    unfold bind at 1.
    replace ((0 <=? j) && (j <? cols Y)) with true by lia. unfold ret at 1.
    assert (length (column X i) = length (column Y j)) as Hlenc
      by (rewrite !length_column by assumption; congruence).
    rewrite (bind_returns _ _ _ _ (k_returns this _ _ Hlenc)).
    unfold set_coeff. rewrite Hr, Hc.
    replace ((0 <=? i) && (i <? cols X) && (0 <=? j) && (j <? cols Y))
      with true by lia.
    reflexivity.
  - pose proof (index_lt i j (cols X) (cols Y) Hi Hj) as Hij.
    repeat split; simpl; try lia.
    + rewrite length_insert. lia.
    + intros i' j' Hi' Hj' HP.
      destruct (decide (i' = i /\ j' = j)) as [[-> ->]|Hne].
      * apply list_lookup_insert_eq. lia.
      * rewrite list_lookup_insert_ne.
        -- apply Hcells; try assumption. tauto.
        -- intros E. apply Hne.
           pose proof (index_lt i' j' (cols X) (cols Y) Hi' Hj').
           apply (index_inj i' j' i j (cols X)); lia.
Qed.

Lemma gram_matrix_returns this X Y :
  wf X -> wf Y -> rows X = rows Y ->
  cols X <= INT_MAX -> cols Y <= INT_MAX ->
  exists G, returns (gram_matrix cmath X Y) this G /\ is_gram cmath this X Y G.
Proof.
  intros HX HY Hrows HM HN.
  pose proof HX as (_ & HM0 & _). pose proof HY as (_ & HN0 & _).
  unfold gram_matrix. rewrite Hrows, Z.eqb_refl. simpl negb. cbv iota.
  rewrite !to_int_small by lia. cbv zeta.
  set (body := fun (i : Z) (result : MatrixXd) => for_int 0 (cols Y) _ result).
  destruct (for_int_returns
    (fun i G => filled cmath this X Y (fun i' _ => i' < i) G)
    body this (cols X)
    (mkMatrix (cols X) (cols Y) (replicate (Z.to_nat (cols X * cols Y)) nan)))
    as (G & HG & HI); [lia| | |].
  - repeat split; simpl; try lia.
    rewrite length_replicate. nia.
  - intros i G Hi HI. unfold body.
    destruct (for_int_returns
      (fun j G => filled cmath this X Y (fun i' j' => i' < i \/ (i' = i /\ j' < j)) G)
      (fun j result => x_i <- col X i ;; y_j <- col Y j ;; v <- k cmath x_i y_j ;;
                       set_coeff result i j v)
      this (cols Y) G) as (G' & HG' & HI'); [lia| | |].
    + revert HI. apply filled_weaken. intros; lia.
    + intros j G1 Hj HI1.
      destruct (body_fills this X Y _ G1 i j HX HY Hrows Hi Hj HI1)
        as (G2 & HG2 & HI2).
      exists G2. split; [exact HG2|].
      revert HI2. apply filled_weaken. intros; lia.
    + exists G'. split; [exact HG'|].
      revert HI'. apply filled_weaken. intros; lia.
  - exists G. split.
    + unfold returns, bind, MatrixXd_new.
      replace ((0 <=? cols X) && (0 <=? cols Y)) with true by lia.
      exact HG.
    + revert HI. apply filled_weaken. intros; lia.
Qed.

Lemma col_returns this A j :
  0 <= j < cols A -> returns (col A j) this (column A j).
Proof.
  intros Hj. unfold returns, col.
  replace ((0 <=? j) && (j <? cols A)) with true by lia. reflexivity.
Qed.

Lemma coeff_lookup this A i j v :
  0 <= i < rows A -> 0 <= j < cols A ->
  data A !! Z.to_nat (i + j * rows A) = Some v ->
  returns (coeff A i j) this v.
Proof.
  intros Hi Hj E. unfold returns, coeff. rewrite E.
  replace ((0 <=? i) && (i <? rows A) && (0 <=? j) && (j <? cols A))
    with true by lia.
  reflexivity.
Qed.

Lemma coeff_linear_lookup this A p v :
  0 <= p < size A -> data A !! Z.to_nat p = Some v ->
  returns (coeff_linear A p) this v.
Proof.
  intros Hp E. unfold returns, coeff_linear. rewrite E.
  replace ((0 <=? p) && (p <? size A)) with true by lia.
  reflexivity.
Qed.

Lemma coeff_gram this X Y G i j :
  is_gram cmath this X Y G -> 0 <= i < cols X -> 0 <= j < cols Y ->
  returns (coeff G i j) this (k_value cmath this (column X i) (column Y j)).
Proof.
  intros (Hr & Hc & _ & Hcells) Hi Hj.
  apply coeff_lookup; rewrite ?Hr, ?Hc; auto.
Qed.

(** *** The shape dispatch of [gram_matrix_stable] *)

(** A 1x1 Gram matrix. *)
Lemma stable_unit this X Y G :
  returns (gram_matrix cmath X Y) this G -> is_gram cmath this X Y G ->
  cols X = 1 -> cols Y = 1 ->
  exists g, data G = [g] /\
    returns (gram_matrix_stable cmath X Y) this
      (mkMatrix 1 1 [if (g =? 1)%float then (g + 1e-3)%float else g]).
Proof.
  intros HG (Hr & Hc & (_ & _ & Hlen) & Hcells) HM HN.
  rewrite HM in Hr. rewrite HN in Hc. rewrite Hr, Hc in Hlen.
  destruct G as [r c [|g [|? ?]]]; simpl in *; try lia. subst r c.
  exists g. split; [reflexivity|].
  unfold returns, gram_matrix_stable. rewrite (bind_returns _ _ _ _ HG).
  cbv. destruct (PrimFloat.eqb g 1); reflexivity.
Qed.

Lemma lookup_Identity r c i j :
  0 <= i < r -> 0 <= j < c ->
  data (Identity r c) !! Z.to_nat (i + j * r)
  = Some (if i =? j then 1%float else 0%float).
Proof.
  intros Hi Hj. pose proof (index_lt i j r c Hi Hj).
  unfold Identity; simpl. rewrite list_lookup_fmap, lookup_seqZ_lt by lia.
  rewrite Z.add_0_l, Z2Nat.id by lia. simpl.
  rewrite index_mod, index_div by lia. reflexivity.
Qed.

(** More than one row and more than one column. *)
Lemma stable_general this X Y G :
  returns (gram_matrix cmath X Y) this G -> is_gram cmath this X Y G ->
  1 < cols X -> 1 < cols Y ->
  exists S,
    returns (plus G (scalar_times 1e-3 (Identity (cols X) (cols Y)))) this S /\
    returns (gram_matrix_stable cmath X Y) this S /\
    rows S = cols X /\ cols S = cols Y /\
    forall i j, 0 <= i < cols X -> 0 <= j < cols Y ->
      data S !! Z.to_nat (i + j * cols X)
      = Some (k_value cmath this (column X i) (column Y j)
              + 1e-3 * (if (i =? j)%Z then 1 else 0))%float.
Proof.
  intros HG (Hr & Hc & (_ & _ & Hlen) & Hcells) HM HN.
  eexists. split; [|split; [|split; [|split]]].
  - unfold returns, plus. cbn [rows cols scalar_times Identity].
    rewrite Hr, Hc, !Z.eqb_refl. reflexivity.
  - unfold returns, gram_matrix_stable. rewrite (bind_returns _ _ _ _ HG).
    cbv zeta. unfold size. rewrite Hr, Hc.
    destruct (Z.eqb_spec (cols X * cols Y) 1) as [E|_]; [nia|].
    unfold bind at 1, ret at 1.
    replace ((1 <? cols X) && (1 <? cols Y)) with true by lia.
    unfold plus. cbn [rows cols scalar_times Identity].
    rewrite Hr, Hc, !Z.eqb_refl. reflexivity.
  - simpl. congruence.
  - simpl. congruence.
  - intros i j Hi Hj. cbn [data scalar_times].
    rewrite lookup_zip_with, (Hcells i j Hi Hj I).
    rewrite list_lookup_fmap.
    rewrite (lookup_Identity (cols X) (cols Y) i j Hi Hj). reflexivity.
Qed.

(** A row or a column of more than one coefficient. *)
Lemma stable_vector this X Y G :
  returns (gram_matrix cmath X Y) this G -> is_gram cmath this X Y G ->
  cols X = 1 \/ cols Y = 1 -> 1 < cols X * cols Y ->
  exists last,
    data G !! Z.to_nat (size G - 1) = Some last /\
    returns (gram_matrix_stable cmath X Y) this
      (if (last =? 1)%float
       then mkMatrix (rows G) (cols G)
              (<[Z.to_nat (size G - 1) := (last + 1e-3)%float]> (data G))
       else G).
Proof.
  intros HG (Hr & Hc & (Hr0 & Hc0 & Hlen) & Hcells) Hvec Hsize.
  destruct (lookup_lt_is_Some_2 (data G) (Z.to_nat (size G - 1))) as [last E].
  { unfold size. lia. }
  exists last. split; [exact E|].
  unfold returns, gram_matrix_stable. rewrite (bind_returns _ _ _ _ HG).
  cbv zeta.
  assert (size G = cols X * cols Y) as Hsz by (unfold size; congruence).
  destruct (Z.eqb_spec (size G) 1) as [E1|_]; [lia|].
  unfold bind at 1, ret at 1.
  replace ((1 <? rows G) && (1 <? cols G)) with false by lia.
  replace ((cols G =? 1) || (rows G =? 1)) with true by lia.
  assert (returns (coeff_linear G (size G - 1)) this last) as Hlast
    by (apply coeff_linear_lookup; [lia|exact E]).
  rewrite (bind_returns _ _ _ (last =? 1)%float).
  2:{ unfold returns. rewrite (bind_returns _ _ _ _ Hlast). reflexivity. }
  destruct (last =? 1)%float.
  - rewrite (bind_returns _ _ _ _ Hlast).
    unfold set_coeff_linear.
    replace ((0 <=? size G - 1) && (size G - 1 <? size G)) with true by lia.
    reflexivity.
  - reflexivity.
Qed.

(** An empty Gram matrix that is neither a row nor a column. *)
Lemma stable_empty this X Y G :
  returns (gram_matrix cmath X Y) this G -> is_gram cmath this X Y G ->
  cols X * cols Y = 0 -> cols X <> 1 -> cols Y <> 1 ->
  returns (gram_matrix_stable cmath X Y) this G.
Proof.
  intros HG (Hr & Hc & (Hr0 & Hc0 & Hlen) & Hcells) Hsize HM HN.
  unfold returns, gram_matrix_stable. rewrite (bind_returns _ _ _ _ HG).
  cbv zeta.
  assert (size G = 0) as Hsz by (unfold size; congruence).
  rewrite Hsz. simpl (0 =? 1). unfold bind at 1, ret at 1.
  replace ((1 <? rows G) && (1 <? cols G)) with false by nia.
  replace ((cols G =? 1) || (rows G =? 1)) with false by lia.
  reflexivity.
Qed.

(** An empty row or column: the read of the last coefficient is at
    index [-1]. *)
Lemma stable_empty_vector this X Y G :
  returns (gram_matrix cmath X Y) this G -> is_gram cmath this X Y G ->
  (cols X = 0 /\ cols Y = 1) \/ (cols X = 1 /\ cols Y = 0) ->
  gram_matrix_stable cmath X Y this = (Throw index_out_of_range, this).
Proof.
  intros HG (Hr & Hc & (Hr0 & Hc0 & Hlen) & Hcells) Hshape.
  unfold gram_matrix_stable. rewrite (bind_returns _ _ _ _ HG).
  cbv zeta.
  assert (size G = 0) as Hsz by (unfold size; nia).
  rewrite Hsz. simpl (0 =? 1). unfold bind at 1, ret at 1.
  replace ((1 <? rows G) && (1 <? cols G)) with false by nia.
  replace ((cols G =? 1) || (rows G =? 1)) with true by lia.
  reflexivity.
Qed.

End Gram.

(** ** Calls leave the kernel object alone *)

Lemma preserves_ret {A} (a : A) : preserves_this (ret a).
Proof. intros this. reflexivity. Qed.

Lemma preserves_throw {A} (e : exn) : preserves_this (@throw A e).
Proof. intros this. reflexivity. Qed.

Lemma preserves_get_this : preserves_this get_this.
Proof. intros this. reflexivity. Qed.

Lemma preserves_bind {A B} (m : method A) (f : A -> method B) :
  preserves_this m -> (forall a, preserves_this (f a)) ->
  preserves_this (bind m f).
Proof.
  intros Hm Hf this. unfold bind. specialize (Hm this).
  destruct (m this) as [[a|e] this']; simpl in Hm; subst this'.
  - apply Hf.
  - reflexivity.
Qed.

Lemma preserves_for_loop {T} n lo (body : Z -> T -> method T) s :
  (forall i s, preserves_this (body i s)) ->
  preserves_this (for_loop n lo body s).
Proof.
  intros Hbody. revert lo s. induction n as [|n IH]; intros lo s; simpl.
  - apply preserves_ret.
  - apply preserves_bind; [apply Hbody|]. intros s'. apply IH.
Qed.

Lemma preserves_for_int {T} lo hi (body : Z -> T -> method T) s :
  (forall i s, preserves_this (body i s)) ->
  preserves_this (for_int lo hi body s).
Proof. apply preserves_for_loop. Qed.

(** Splits a member function along its binds, loops and branches; the
    functions already dealt with are looked up in the hint database. *)
Create HintDb preserves.

Ltac preserves :=
  repeat first
    [ solve [auto with preserves nocore]
    | apply preserves_ret
    | apply preserves_throw
    | apply preserves_get_this
    | apply preserves_bind; [|intros ?]
    | apply preserves_for_int; intros ? ?
    | match goal with
      | |- preserves_this (if ?b then _ else _) => destruct b
      | |- preserves_this (match ?x with _ => _ end) => destruct x
      end ].

Lemma preserves_MatrixXd_new r c : preserves_this (MatrixXd_new r c).
Proof. unfold MatrixXd_new. preserves. Qed.

Lemma preserves_coeff A i j : preserves_this (coeff A i j).
Proof. unfold coeff. preserves. Qed.

Lemma preserves_set_coeff A i j v : preserves_this (set_coeff A i j v).
Proof. unfold set_coeff. preserves. Qed.

Lemma preserves_coeff_linear A p : preserves_this (coeff_linear A p).
Proof. unfold coeff_linear. preserves. Qed.

Lemma preserves_set_coeff_linear A p v :
  preserves_this (set_coeff_linear A p v).
Proof. unfold set_coeff_linear. preserves. Qed.

Lemma preserves_col A j : preserves_this (col A j).
Proof. unfold col. preserves. Qed.

Lemma preserves_plus A B : preserves_this (plus A B).
Proof. unfold plus. preserves. Qed.

Lemma preserves_inner_product x y : preserves_this (inner_product x y).
Proof. unfold inner_product. preserves. Qed.

Lemma preserves_difference x y : preserves_this (difference x y).
Proof. unfold difference. preserves. Qed.

#[export] Hint Resolve preserves_MatrixXd_new preserves_coeff
  preserves_set_coeff preserves_coeff_linear preserves_set_coeff_linear
  preserves_col preserves_plus preserves_inner_product preserves_difference
  : preserves.

Lemma preserves_k cmath x y : preserves_this (k cmath x y).
Proof. unfold k. preserves. Qed.

#[export] Hint Resolve preserves_k : preserves.

Lemma preserves_gram_matrix cmath X Y : preserves_this (gram_matrix cmath X Y).
Proof. unfold gram_matrix. cbv zeta. preserves. Qed.

#[export] Hint Resolve preserves_gram_matrix : preserves.

Lemma preserves_gram_matrix_stable cmath X Y :
  preserves_this (gram_matrix_stable cmath X Y).
Proof. unfold gram_matrix_stable. cbv zeta. preserves. Qed.

Lemma twice_preserves {A} (m : method A) this :
  preserves_this m -> twice m this = (fst (m this), fst (m this), this).
Proof.
  intros Hm. unfold twice. pose proof (Hm this) as H.
  destruct (m this) as [r this1] eqn:E. simpl in H. subst this1.
  rewrite E. reflexivity.
Qed.

(** The constructors do write the object, and a write through a map does
    write the buffer: leaving the memory alone is a property of a body. *)
Example constructor_writes_this :
  linear_kernel_ctor 2 (gaussian_kernel 1) = (Ok tt, linear_kernel 2).
Proof. reflexivity. Qed.

Example write_Map_writes_buffer :
  map_data
    (mapped
       (snd (write_Map 0 1 0 7 (mkMemory (linear_kernel 0)
                                  (fun _ => mkMap 2 1 [1; 2]%float))))
       0)
  = [1; 7]%float.
Proof. reflexivity. Qed.

(** An overload that copies its two mapped arguments and calls a member
    function that leaves the object alone: it returns what the member
    function returns on the copies, and leaves the kernel object and every
    mapped buffer as they were; so does a second call. *)
Lemma overload_preserves {A} (f : MatrixXd -> MatrixXd -> method A) mem X Y :
  (forall x y, preserves_this (f x y)) ->
  exists r,
    f (MatrixXd_of_Map (mapped mem X)) (MatrixXd_of_Map (mapped mem Y))
      (object mem) = (r, object mem) /\
    call_bind (copy_Map X) (fun x =>
      call_bind (copy_Map Y) (fun y => on_object (f x y))) mem = (r, mem) /\
    call_twice
      (call_bind (copy_Map X) (fun x =>
         call_bind (copy_Map Y) (fun y => on_object (f x y)))) mem
    = (r, r, mem).
Proof.
  intros Hf.
  set (m := f (MatrixXd_of_Map (mapped mem X)) (MatrixXd_of_Map (mapped mem Y))).
  assert (snd (m (object mem)) = object mem) as Hm by apply Hf.
  assert (call_bind (copy_Map X) (fun x =>
            call_bind (copy_Map Y) (fun y => on_object (f x y))) mem
          = (fst (m (object mem)), mem)) as E.
  { unfold call_bind, copy_Map, on_object. fold m.
    destruct (m (object mem)) as [r this'] eqn:Em. simpl in Hm. subst this'.
    destruct mem as [o b]; destruct r; reflexivity. }
  exists (fst (m (object mem))). split; [|split].
  - rewrite <- Hm at 3. apply surjective_pairing.
  - exact E.
  - unfold call_twice. rewrite E, E. reflexivity.
Qed.

(** ** Facts about the kernels *)

Lemma sum_snoc (v : VectorXd) (a : float) :
  v <> [] -> sum (v ++ [a]) = (sum v + a)%float.
Proof.
  destruct v as [|b v]; [congruence|]. intros _. simpl.
  rewrite fold_left_app. reflexivity.
Qed.

Lemma sum_products_upto (x y : VectorXd) (n : nat) :
  (n < length x)%nat -> length x = length y ->
  sum (take (S n) (zip_with PrimFloat.mul x y)) = dot_product_upto x y n.
Proof.
  intros Hn Hlen. induction n as [|n IH].
  - destruct x as [|a x], y as [|b y]; simpl in *; try lia. reflexivity.
  - destruct (lookup_lt_is_Some_2 x (S n) Hn) as [a Ha].
    destruct (lookup_lt_is_Some_2 y (S n) ltac:(lia)) as [b Hb].
    rewrite (take_S_r _ _ (a * b)%float)
      by (rewrite lookup_zip_with, Ha; simpl; rewrite Hb; reflexivity).
    rewrite sum_snoc, IH by (try lia; destruct x, y; simpl in *; try lia; congruence).
    simpl. rewrite (nth_lookup_Some _ _ _ _ Ha), (nth_lookup_Some _ _ _ _ Hb).
    reflexivity.
Qed.

(** The inner product Eigen computes is that dot product. *)
Lemma sum_products (x y : VectorXd) :
  length x = length y -> sum (zip_with PrimFloat.mul x y) = dot_product x y.
Proof.
  intros Hlen. unfold dot_product. destruct (length x) as [|n] eqn:E.
  - destruct x; [reflexivity|discriminate].
  - rewrite <- (sum_products_upto x y n) by lia.
    rewrite take_ge; [reflexivity|]. rewrite length_zip_with. lia.
Qed.

Lemma products_comm (x y : VectorXd) :
  zip_with PrimFloat.mul x y = zip_with PrimFloat.mul y x.
Proof.
  revert y. induction x as [|a x IH]; intros [|b y]; simpl; try reflexivity.
  rewrite F64.mul_comm, IH. reflexivity.
Qed.

Lemma squared_differences_comm (x y : VectorXd) :
  square (zip_with PrimFloat.sub x y) = square (zip_with PrimFloat.sub y x).
Proof.
  revert y. induction x as [|a x IH]; intros [|b y]; simpl; try reflexivity.
  unfold square in *. simpl. rewrite F64.square_sub_sym, IH. reflexivity.
Qed.

Lemma k_value_comm cmath this (x y : VectorXd) :
  k_value cmath this x y = k_value cmath this y x.
Proof.
  destruct this; simpl;
    rewrite ?(products_comm x y), ?(squared_differences_comm x y); reflexivity.
Qed.

Lemma squared_differences_self (x : VectorXd) :
  Forall (fun a => is_finite a = true) x ->
  square (zip_with PrimFloat.sub x x) = replicate (length x) 0%float.
Proof.
  induction 1 as [|a x Ha _ IH]; simpl; [reflexivity|].
  unfold square in *. simpl. rewrite (F64.sub_diag a Ha), IH. reflexivity.
Qed.

Lemma sum_zeros (n : nat) : sum (replicate n 0%float) = 0%float.
Proof.
  destruct n as [|n]; simpl; [reflexivity|].
  induction n as [|n IH]; simpl; [reflexivity|]. exact IH.
Qed.

(** With [s = 1], [x = (0,0)] and [y = (1,1)] the Gaussian kernel is
    [exp(-1)]. *)
Example gaussian_unit_diagonal cmath :
  returns (k cmath [0; 0]%float [1; 1]%float) (gaussian_kernel 1)
    (exp cmath (-1)%float).
Proof. reflexivity. Qed.

(** ** The row-count check *)

Lemma gram_matrix_mismatch cmath this X Y :
  rows X <> rows Y -> gram_matrix cmath X Y this = (Throw mismatch, this).
Proof.
  intros H. unfold gram_matrix.
  destruct (Z.eqb_spec (rows X) (rows Y)); [contradiction|reflexivity].
Qed.

Lemma gram_matrix_stable_mismatch cmath this X Y :
  rows X <> rows Y -> gram_matrix_stable cmath X Y this = (Throw mismatch, this).
Proof.
  intros H. unfold gram_matrix_stable. cbv zeta.
  apply bind_throws, gram_matrix_mismatch, H.
Qed.

(** With equal row counts [gram_matrix_stable] returns, unless the Gram
    matrix is an empty row or an empty column. *)
Lemma gram_matrix_stable_returns cmath this X Y :
  wf X -> wf Y -> rows X = rows Y ->
  cols X <= INT_MAX -> cols Y <= INT_MAX ->
  ~ ((cols X = 0 /\ cols Y = 1) \/ (cols X = 1 /\ cols Y = 0)) ->
  exists S, returns (gram_matrix_stable cmath X Y) this S.
Proof.
  intros HX HY Hrows HM HN Hshape.
  destruct (gram_matrix_returns cmath this X Y HX HY Hrows HM HN) as (G & HG & Hgram).
  pose proof HX as (_ & HM0 & _). pose proof HY as (_ & HN0 & _).
  destruct (decide (cols X * cols Y = 0)) as [E0|Hne0].
  - exists G. apply (stable_empty cmath this X Y G HG Hgram E0); nia.
  - destruct (decide (cols X = 1)) as [E1|Hne1];
      [destruct (decide (cols Y = 1)) as [E2|Hne2]|].
    + destruct (stable_unit cmath this X Y G HG Hgram E1 E2) as (g & _ & H).
      eauto.
    + destruct (stable_vector cmath this X Y G HG Hgram) as (last & _ & H);
        [auto|nia|eauto].
    + destruct (decide (cols Y = 1)) as [E2|Hne2].
      * destruct (stable_vector cmath this X Y G HG Hgram) as (last & _ & H);
          [auto|nia|eauto].
      * destruct (stable_general cmath this X Y G HG Hgram) as (S & _ & H & _);
          [nia|nia|eauto].
Qed.

(** With equal row counts and a Gram matrix that is an empty row or an
    empty column, [gram_matrix_stable] fails on the read of the last
    coefficient. *)
Lemma gram_matrix_stable_empty_vector_fails cmath this X Y :
  wf X -> wf Y -> rows X = rows Y ->
  (cols X = 0 /\ cols Y = 1) \/ (cols X = 1 /\ cols Y = 0) ->
  gram_matrix_stable cmath X Y this = (Throw index_out_of_range, this).
Proof.
  intros HX HY Hrows Hshape.
  destruct (gram_matrix_returns cmath this X Y HX HY Hrows) as (G & HG & Hgram);
    [unfold INT_MAX; lia|unfold INT_MAX; lia|].
  exact (stable_empty_vector cmath this X Y G HG Hgram Hshape).
Qed.

(** * The properties *)

(** C1. For [X] of [d] rows and [M] columns and [Y] of [d] rows and [N]
    columns (column counts that fit an [int]), [gram_matrix(X,Y)] returns a
    matrix of [M] rows and [N] columns whose coefficient [(i,j)] is what the
    kernel [k] returns on column [i] of [X] and column [j] of [Y], for every
    [i] in [0,M) and [j] in [0,N). *)
Theorem gram_matrix_entries cmath this X Y :
  wf X -> wf Y -> rows X = rows Y ->
  cols X <= INT_MAX -> cols Y <= INT_MAX ->
  exists G,
    returns (gram_matrix cmath X Y) this G /\
    wf G /\ rows G = cols X /\ cols G = cols Y /\
    forall i j, 0 <= i < cols X -> 0 <= j < cols Y ->
      exists x_i y_j v,
        returns (col X i) this x_i /\ returns (col Y j) this y_j /\
        returns (k cmath x_i y_j) this v /\
        returns (coeff G i j) this v.
Proof.
  intros HX HY Hrows HM HN.
  destruct (gram_matrix_returns cmath this X Y HX HY Hrows HM HN)
    as (G & HG & Hgram).
  exists G. pose proof Hgram as (Hr & Hc & Hwf & _).
  repeat (split; [assumption|]).
  intros i j Hi Hj.
  exists (column X i), (column Y j), (k_value cmath this (column X i) (column Y j)).
  split; [now apply col_returns|]. split; [now apply col_returns|].
  split.
  - apply k_returns. rewrite !length_column by assumption. congruence.
  - now apply (coeff_gram cmath this X Y).
Qed.

Lemma gram_matrix_entries_witness :
  exists G,
    returns (gram_matrix cmath_ref X_23 X_id2) (gaussian_kernel 1) G /\
    wf G /\ rows G = cols X_23 /\ cols G = cols X_id2 /\
    forall i j, 0 <= i < cols X_23 -> 0 <= j < cols X_id2 ->
      exists x_i y_j v,
        returns (col X_23 i) (gaussian_kernel 1) x_i /\
        returns (col X_id2 j) (gaussian_kernel 1) y_j /\
        returns (k cmath_ref x_i y_j) (gaussian_kernel 1) v /\
        returns (coeff G i j) (gaussian_kernel 1) v.
Proof.
  apply (gram_matrix_entries cmath_ref (gaussian_kernel 1) X_23 X_id2);
    unfold wf, INT_MAX; simpl; lia.
Defined.

(** C2 (the code departs from it). Row counts are equal, [gram_matrix]
    returns the empty 1x0 Gram matrix, and [gram_matrix_stable] fails on an
    index assertion: it reads the last coefficient of an empty row. *)
Theorem gram_matrix_stable_equal_rows_failure cmath this :
  rows (mkMatrix 1 1 [3%float]) = rows (mkMatrix 1 0 []) /\
  returns (gram_matrix cmath (mkMatrix 1 1 [3%float]) (mkMatrix 1 0 [])) this
    (mkMatrix 1 0 []) /\
  gram_matrix_stable cmath (mkMatrix 1 1 [3%float]) (mkMatrix 1 0 []) this
  = (Throw index_out_of_range, this).
Proof. repeat split. Qed.

(** C3. For [X] and [Y] of equal row count with more than one column each,
    [gram_matrix_stable(X,Y)] is [gram_matrix(X,Y)] plus [1e-3] times the
    identity pattern: a coefficient on the main diagonal is the Gram
    coefficient plus [1e-3], a coefficient off the diagonal is the Gram
    coefficient plus zero and so has its value. For [X = [[1,0],[0,1]]] and the linear kernel with
    [c = 0], [gram_matrix(X,X)] is the identity and [gram_matrix_stable(X,X)]
    is [[1.001,0],[0,1.001]]. *)
Theorem gram_matrix_stable_diagonal cmath :
  (forall this X Y,
     wf X -> wf Y -> rows X = rows Y ->
     cols X <= INT_MAX -> cols Y <= INT_MAX ->
     1 < cols X -> 1 < cols Y ->
     exists G S,
       returns (gram_matrix cmath X Y) this G /\
       returns (gram_matrix_stable cmath X Y) this S /\
       returns (plus G (scalar_times 1e-3 (Identity (cols X) (cols Y)))) this S /\
       rows S = cols X /\ cols S = cols Y /\
       forall i j, 0 <= i < cols X -> 0 <= j < cols Y ->
         exists g s,
           returns (coeff G i j) this g /\ returns (coeff S i j) this s /\
           (i = j -> s = (g + 1e-3)%float) /\
           (i <> j -> s = (g + 0)%float /\ same_value s g)) /\
  returns (gram_matrix cmath X_id2 X_id2) (linear_kernel 0)
    (mkMatrix 2 2 [1; 0; 0; 1]%float) /\
  returns (gram_matrix_stable cmath X_id2 X_id2) (linear_kernel 0)
    (mkMatrix 2 2 [1.001; 0; 0; 1.001]%float).
Proof.
  split; [|split; reflexivity].
  intros this X Y HX HY Hrows HM HN HM1 HN1.
  destruct (gram_matrix_returns cmath this X Y HX HY Hrows HM HN)
    as (G & HG & Hgram).
  destruct (stable_general cmath this X Y G HG Hgram HM1 HN1)
    as (S & Hplus & HS & Hr & Hc & Hcells).
  exists G, S. repeat (split; [assumption|]).
  intros i j Hi Hj.
  exists (k_value cmath this (column X i) (column Y j)).
  eexists. split; [now apply (coeff_gram cmath this X Y)|].
  split; [apply coeff_lookup; rewrite ?Hr, ?Hc; auto|].
  split.
  - intros ->. rewrite Z.eqb_refl. reflexivity.
  - intros Hne. destruct (Z.eqb_spec i j) as [E|_]; [contradiction|].
    split; [reflexivity|]. apply F64.add_zero_r_same.
Qed.

Lemma gram_matrix_stable_diagonal_witness :
  exists G S,
    returns (gram_matrix cmath_ref X_23 X_id2) (gaussian_kernel 1) G /\
    returns (gram_matrix_stable cmath_ref X_23 X_id2) (gaussian_kernel 1) S /\
    returns (plus G (scalar_times 1e-3 (Identity (cols X_23) (cols X_id2))))
      (gaussian_kernel 1) S /\
    rows S = cols X_23 /\ cols S = cols X_id2 /\
    forall i j, 0 <= i < cols X_23 -> 0 <= j < cols X_id2 ->
      exists g s,
        returns (coeff G i j) (gaussian_kernel 1) g /\
        returns (coeff S i j) (gaussian_kernel 1) s /\
        (i = j -> s = (g + 1e-3)%float) /\
        (i <> j -> s = (g + 0)%float /\ same_value s g).
Proof.
  apply (proj1 (gram_matrix_stable_diagonal cmath_ref)
           (gaussian_kernel 1) X_23 X_id2);
    unfold wf, INT_MAX; simpl; lia.
Defined.

(** C4. When the Gram matrix of [X] and [Y] is 1x1, [gram_matrix_stable]
    returns the 1x1 matrix of that coefficient plus [1e-3] if the
    coefficient [== 1], and of the coefficient itself if not. *)
Theorem gram_matrix_stable_unit cmath this X Y :
  wf X -> wf Y -> rows X = rows Y -> cols X = 1 -> cols Y = 1 ->
  exists g,
    returns (gram_matrix cmath X Y) this (mkMatrix 1 1 [g]) /\
    returns (gram_matrix_stable cmath X Y) this
      (mkMatrix 1 1 [if (g =? 1)%float then (g + 1e-3)%float else g]).
Proof.
  intros HX HY Hrows HM HN.
  destruct (gram_matrix_returns cmath this X Y HX HY Hrows) as (G & HG & Hgram);
    [unfold INT_MAX; lia|unfold INT_MAX; lia|].
  destruct (stable_unit cmath this X Y G HG Hgram HM HN) as (g & Hdata & HS).
  exists g. split; [|exact HS].
  destruct Hgram as (Hr & Hc & _). destruct G as [r c d]. simpl in *.
  subst. rewrite HM, HN in HG. exact HG.
Qed.

Lemma gram_matrix_stable_unit_witness :
  exists g,
    returns (gram_matrix cmath_ref X_21 X_21) (linear_kernel 0) (mkMatrix 1 1 [g]) /\
    returns (gram_matrix_stable cmath_ref X_21 X_21) (linear_kernel 0)
      (mkMatrix 1 1 [if (g =? 1)%float then (g + 1e-3)%float else g]).
Proof.
  apply (gram_matrix_stable_unit cmath_ref (linear_kernel 0) X_21 X_21);
    unfold wf; simpl; lia.
Defined.

(** C5. When the Gram matrix of [X] and [Y] is a row or a column of more
    than one coefficient: if its last coefficient [== 1],
    [gram_matrix_stable] returns the Gram matrix with [1e-3] added to the
    last coefficient and every other coefficient as it was; otherwise it
    returns the Gram matrix itself. *)
Theorem gram_matrix_stable_vector cmath this X Y :
  wf X -> wf Y -> rows X = rows Y ->
  cols X <= INT_MAX -> cols Y <= INT_MAX ->
  cols X = 1 \/ cols Y = 1 -> 1 < cols X * cols Y ->
  exists G last,
    returns (gram_matrix cmath X Y) this G /\
    returns (coeff_linear G (size G - 1)) this last /\
    if (last =? 1)%float then
      exists S,
        returns (gram_matrix_stable cmath X Y) this S /\
        rows S = rows G /\ cols S = cols G /\
        returns (coeff_linear S (size G - 1)) this (last + 1e-3)%float /\
        forall p, 0 <= p < size G - 1 ->
          exists v, returns (coeff_linear G p) this v /\
                    returns (coeff_linear S p) this v
    else returns (gram_matrix_stable cmath X Y) this G.
Proof.
  intros HX HY Hrows HM HN Hvec Hsize.
  destruct (gram_matrix_returns cmath this X Y HX HY Hrows HM HN)
    as (G & HG & Hgram).
  destruct (stable_vector cmath this X Y G HG Hgram Hvec Hsize)
    as (last & Hlast & HS).
  pose proof Hgram as (Hr & Hc & (Hr0 & Hc0 & Hlen) & _).
  assert (size G = cols X * cols Y) as Hsz by (unfold size; congruence).
  exists G, last. split; [exact HG|].
  split; [apply coeff_linear_lookup; [lia|exact Hlast]|].
  destruct (last =? 1)%float; [|exact HS].
  eexists. split; [exact HS|]. split; [reflexivity|]. split; [reflexivity|].
  split.
  - apply coeff_linear_lookup; [unfold size in *; simpl; lia|]. simpl.
    apply list_lookup_insert_eq. unfold size in *. lia.
  - intros p Hp.
    destruct (lookup_lt_is_Some_2 (data G) (Z.to_nat p)) as [v Hv];
      [unfold size in *; lia|].
    exists v. split.
    + apply coeff_linear_lookup; [lia|exact Hv].
    + apply coeff_linear_lookup; [unfold size in *; simpl; lia|]. simpl.
      rewrite list_lookup_insert_ne by lia. exact Hv.
Qed.

Lemma gram_matrix_stable_vector_witness :
  exists G last,
    returns (gram_matrix cmath_ref X_23 X_21) (linear_kernel (-5)) G /\
    returns (coeff_linear G (size G - 1)) (linear_kernel (-5)) last /\
    if (last =? 1)%float then
      exists S,
        returns (gram_matrix_stable cmath_ref X_23 X_21) (linear_kernel (-5)) S /\
        rows S = rows G /\ cols S = cols G /\
        returns (coeff_linear S (size G - 1)) (linear_kernel (-5))
          (last + 1e-3)%float /\
        forall p, 0 <= p < size G - 1 ->
          exists v, returns (coeff_linear G p) (linear_kernel (-5)) v /\
                    returns (coeff_linear S p) (linear_kernel (-5)) v
    else returns (gram_matrix_stable cmath_ref X_23 X_21) (linear_kernel (-5)) G.
Proof.
  apply (gram_matrix_stable_vector cmath_ref (linear_kernel (-5)) X_23 X_21);
    unfold wf, INT_MAX; simpl; lia.
Defined.

(** C6, as amended. For every vector [x] of finite coordinates and every
    bandwidth [s] for which the computed [2 * s * s] is strictly positive,
    the Gaussian kernel returns exactly 1 on [(x, x)], [exp] being one that
    maps zero to 1. *)
Theorem gaussian_self_similarity cmath s (x : VectorXd) :
  exp cmath (-0)%float = 1%float ->
  Forall (fun a => is_finite a = true) x ->
  (0 <? 2 * s * s)%float = true ->
  returns (k cmath x x) (gaussian_kernel s) 1%float.
Proof.
  intros Hexp Hx Hs.
  pose proof (k_returns cmath (gaussian_kernel s) x x eq_refl) as H.
  simpl in H. rewrite (squared_differences_self x Hx), sum_zeros in H.
  change (-1 * 0)%float with (-0)%float in H.
  rewrite (F64.neg_zero_div_pos _ Hs), Hexp in H. exact H.
Qed.

Lemma gaussian_self_similarity_witness :
  returns (k cmath_ref [1; 2; 3]%float [1; 2; 3]%float) (gaussian_kernel 2) 1%float.
Proof.
  apply (gaussian_self_similarity cmath_ref 2 [1; 2; 3]%float).
  - reflexivity.
  - repeat constructor.
  - reflexivity.
Defined.

(** C6, as stated, fails: with bandwidth 0 the exponent is [0 / 0] and the
    kernel of [(x, x)] is [nan], not 1. *)
Lemma gaussian_self_zero_bandwidth :
  k cmath_ref [1%float] [1%float] (gaussian_kernel 0)
  = (Ok nan, gaussian_kernel 0).
Proof. reflexivity. Qed.

(** So it fails on an infinite coordinate, and on a bandwidth whose square
    underflows to zero. *)
Example gaussian_self_infinite_coordinate :
  k cmath_ref [infinity] [infinity] (gaussian_kernel 1)
  = (Ok nan, gaussian_kernel 1).
Proof. reflexivity. Qed.

Example gaussian_self_tiny_bandwidth :
  k cmath_ref [1%float] [1%float] (gaussian_kernel 1e-200)
  = (Ok nan, gaussian_kernel 1e-200).
Proof. reflexivity. Qed.

(** Whatever [exp] is, with bandwidth 0 it is called on [nan]. *)
Lemma gaussian_zero_bandwidth_exponent cmath (x : VectorXd) :
  Forall (fun a => is_finite a = true) x ->
  returns (k cmath x x) (gaussian_kernel 0) (exp cmath nan).
Proof.
  intros Hx.
  pose proof (k_returns cmath (gaussian_kernel 0) x x eq_refl) as H.
  simpl in H. rewrite (squared_differences_self x Hx), sum_zeros in H.
  exact H.
Qed.

(** C7. For every matrix [X] (of a column count that fits an [int]) and
    each of the three kernels, [gram_matrix(X,X)] is symmetric: coefficient
    [(i,j)] is coefficient [(j,i)]. *)
Theorem gram_matrix_symmetric cmath this X :
  wf X -> cols X <= INT_MAX ->
  exists G,
    returns (gram_matrix cmath X X) this G /\
    forall i j, 0 <= i < cols X -> 0 <= j < cols X ->
      exists v, returns (coeff G i j) this v /\ returns (coeff G j i) this v.
Proof.
  intros HX HM.
  destruct (gram_matrix_returns cmath this X X HX HX eq_refl HM HM)
    as (G & HG & Hgram).
  exists G. split; [exact HG|]. intros i j Hi Hj.
  exists (k_value cmath this (column X i) (column X j)). split.
  - now apply (coeff_gram cmath this X X).
  - rewrite k_value_comm. now apply (coeff_gram cmath this X X).
Qed.

Lemma gram_matrix_symmetric_witness :
  exists G,
    returns (gram_matrix cmath_ref X_23 X_23) (polynomial_kernel 2 1 3) G /\
    forall i j, 0 <= i < cols X_23 -> 0 <= j < cols X_23 ->
      exists v, returns (coeff G i j) (polynomial_kernel 2 1 3) v /\
                returns (coeff G j i) (polynomial_kernel 2 1 3) v.
Proof.
  apply (gram_matrix_symmetric cmath_ref (polynomial_kernel 2 1 3) X_23);
    unfold wf, INT_MAX; simpl; lia.
Defined.

(** C8. For vectors [x] and [y] of one length, the linear kernel with bias
    [c] returns the dot product of [x] and [y] plus [c]. *)
Theorem linear_kernel_dot cmath c (x y : VectorXd) :
  length x = length y ->
  returns (k cmath x y) (linear_kernel c) (dot_product x y + c)%float.
Proof.
  intros Hlen. rewrite <- (sum_products x y Hlen).
  exact (k_returns cmath (linear_kernel c) x y Hlen).
Qed.

Lemma linear_kernel_dot_witness :
  returns (k cmath_ref [1; 2; 3]%float [4; 5; 6]%float) (linear_kernel 0.5)
    (dot_product [1; 2; 3]%float [4; 5; 6]%float + 0.5)%float.
Proof.
  apply (linear_kernel_dot cmath_ref 0.5 [1; 2; 3]%float [4; 5; 6]%float).
  reflexivity.
Defined.

(** C9. A call of [k], [gram_matrix] or [gram_matrix_stable] leaves the
    hyperparameters of the kernel object as they were, whatever its
    outcome, and a second call on the same arguments has the outcome of the
    first; these take their arguments by value or by reference to const.
    The two overloads that take their matrices by [Map<MatrixXd>&], which
    allows writes, leave the kernel object and every mapped buffer as they
    were, return what the call on the copies returns, and a second call has
    the outcome of the first. *)
Theorem calls_deterministic cmath :
  (forall this (x y : VectorXd) (X Y : MatrixXd),
     (exists r, k cmath x y this = (r, this) /\
                twice (k cmath x y) this = (r, r, this)) /\
     (exists r, gram_matrix cmath X Y this = (r, this) /\
                twice (gram_matrix cmath X Y) this = (r, r, this)) /\
     (exists r, gram_matrix_stable cmath X Y this = (r, this) /\
                twice (gram_matrix_stable cmath X Y) this = (r, r, this))) /\
  (forall mem (X Y : nat),
     let x := MatrixXd_of_Map (mapped mem X) in
     let y := MatrixXd_of_Map (mapped mem Y) in
     (exists r, gram_matrix cmath x y (object mem) = (r, object mem) /\
                gram_matrix_Map cmath X Y mem = (r, mem) /\
                call_twice (gram_matrix_Map cmath X Y) mem = (r, r, mem)) /\
     (exists r, gram_matrix_stable cmath x y (object mem) = (r, object mem) /\
                gram_matrix_stable_Map cmath X Y mem = (r, mem) /\
                call_twice (gram_matrix_stable_Map cmath X Y) mem = (r, r, mem))).
Proof.
  split.
  - intros this x y X Y.
    assert (forall A (m : method A), preserves_this m ->
              exists r, m this = (r, this) /\ twice m this = (r, r, this)) as H.
    { intros A m Hm. exists (fst (m this)). split.
      - rewrite <- (Hm this) at 3. apply surjective_pairing.
      - now apply twice_preserves. }
    repeat split; apply H.
    + apply preserves_k.
    + apply preserves_gram_matrix.
    + apply preserves_gram_matrix_stable.
  - intros mem X Y x y. split.
    + apply (overload_preserves (gram_matrix cmath)).
      intros. apply preserves_gram_matrix.
    + apply (overload_preserves (gram_matrix_stable cmath)).
      intros. apply preserves_gram_matrix_stable.
Qed.

(** C10 (the code departs from it). For an [X] without columns and a [Y]
    of one column, of equal row counts, the Gram matrix is an empty column;
    [gram_matrix_stable] takes the row-or-column branch and reads the
    coefficient at index [size - 1 = -1], outside the matrix. *)
Theorem gram_matrix_stable_empty_column_read cmath this :
  returns (gram_matrix cmath X_20 X_21) this (mkMatrix 0 1 []) /\
  size (mkMatrix 0 1 []) - 1 = -1 /\
  coeff_linear (mkMatrix 0 1 []) (-1) this = (Throw index_out_of_range, this) /\
  gram_matrix_stable cmath X_20 X_21 this = (Throw index_out_of_range, this).
Proof. repeat split. Qed.

(** * Further properties *)

(** ** More binary64 arithmetic *)

Lemma binary_round_aux_negb prec emax s m e l :
  binary_round_aux prec emax (negb s) m e l =
  SFopp (binary_round_aux prec emax s m e l).
Proof.
  unfold binary_round_aux.
  destruct (shr_fexp prec emax m e l) as [mrs e1].
  destruct (shr_fexp prec emax _ e1 loc_Exact) as [mrs2 e2].
  destruct (shr_m mrs2); try reflexivity.
  destruct (Z.leb e2 (emax - prec)); reflexivity.
Qed.

Lemma mul_opp_r (x y : float) : (x * - y)%float = (- (x * y))%float.
Proof.
  apply Prim2SF_inj. rewrite opp_spec, !mul_spec, opp_spec.
  destruct (Prim2SF x) as [sx|sx| |sx mx ex], (Prim2SF y) as [sy|sy| |sy my ey];
    try reflexivity; try (destruct sx, sy; reflexivity).
  unfold SF64mul, SFmul, SFopp at 1.
  rewrite <- binary_round_aux_negb. destruct sx, sy; reflexivity.
Qed.

Lemma mul_opp_opp (x y : float) : (- x * - y)%float = (x * y)%float.
Proof.
  apply Prim2SF_inj. rewrite !mul_spec, !opp_spec.
  destruct (Prim2SF x) as [sx|sx| |sx mx ex], (Prim2SF y) as [sy|sy| |sy my ey];
    try reflexivity; destruct sx, sy; reflexivity.
Qed.

(** The denominator of the Gaussian exponent does not see the sign of the
    bandwidth. *)
Lemma bandwidth_sign (s : float) : (2 * - s * - s)%float = (2 * s * s)%float.
Proof. rewrite (mul_opp_r 2 s), mul_opp_opp. reflexivity. Qed.

(** ** The kernels, on any two vectors *)

(** X1. Each of the three kernels is symmetric in its arguments: [k(x,y)]
    and [k(y,x)] have the same outcome, the same double or the same failed
    size assertion. *)
Theorem k_symmetric cmath this (x y : VectorXd) :
  k cmath x y this = k cmath y x this.
Proof.
  unfold k, bind, get_this, inner_product, difference.
  rewrite (Nat.eqb_sym (length y) (length x)).
  destruct this; destruct (length x =? length y)%nat; try reflexivity; unfold ret.
  - rewrite (products_comm x y). reflexivity.
  - rewrite (products_comm x y). reflexivity.
  - rewrite (squared_differences_comm x y). reflexivity.
Qed.

(** X3. The Gaussian kernel does not see the sign of its bandwidth: with
    [-s] it has the outcome it has with [s]. *)
Theorem gaussian_bandwidth_sign cmath s (x y : VectorXd) :
  fst (k cmath x y (gaussian_kernel (- s))) = fst (k cmath x y (gaussian_kernel s)).
Proof.
  unfold k, bind, get_this, difference.
  destruct (length x =? length y)%nat; [|reflexivity].
  unfold ret. simpl. rewrite bandwidth_sign. reflexivity.
Qed.

(** ** [gram_matrix_stable], whatever the shape *)

Lemma returns_inj {A} (m : method A) this (a b : A) :
  returns m this a -> returns m this b -> a = b.
Proof. unfold returns. intros Ha Hb. rewrite Ha in Hb. now inversion Hb. Qed.

Lemma length_Identity r c : length (data (Identity r c)) = Z.to_nat (r * c).
Proof. unfold Identity; simpl. now rewrite length_fmap, length_seqZ. Qed.

(** With equal row counts and a Gram matrix that is no empty row or column,
    [gram_matrix_stable] returns a matrix of the shape of the Gram matrix,
    whose coefficients are the [stabilised] Gram coefficients. *)
Lemma stable_cells cmath this X Y G :
  returns (gram_matrix cmath X Y) this G -> is_gram cmath this X Y G ->
  ~ empty_vector_shape (cols X) (cols Y) ->
  exists S,
    returns (gram_matrix_stable cmath X Y) this S /\
    rows S = cols X /\ cols S = cols Y /\ wf S /\
    forall i j, 0 <= i < cols X -> 0 <= j < cols Y ->
      data S !! Z.to_nat (i + j * cols X)
      = Some (stabilised (cols X) (cols Y) i j
                (k_value cmath this (column X i) (column Y j))).
Proof.
  intros HG Hgram Hshape. unfold empty_vector_shape in Hshape.
  pose proof Hgram as (Hr & Hc & (Hr0 & Hc0 & Hlen) & Hcells).
  assert (0 <= cols X /\ 0 <= cols Y) as [HM0 HN0] by lia.
  destruct (decide (cols X * cols Y = 0)) as [E0|Hne0].
  { exists G. split; [apply (stable_empty cmath this X Y G HG Hgram E0); nia|].
    split; [assumption|]. split; [assumption|]. split; [unfold wf; lia|].
    intros i j Hi Hj. nia. }
  destruct (decide (1 < cols X /\ 1 < cols Y)) as [[HM HN]|Hvec].
  { destruct (stable_general cmath this X Y G HG Hgram HM HN)
      as (S & Hplus & HS & HrS & HcS & HcellsS).
    exists S. split; [assumption|]. split; [assumption|].
    split; [assumption|]. split.
    - unfold returns, plus in Hplus. cbn [rows cols scalar_times Identity] in Hplus.
      rewrite Hr, Hc, !Z.eqb_refl in Hplus. inversion Hplus; subst S; clear Hplus.
      repeat split; simpl; try lia.
      rewrite length_zip_with, length_fmap, length_fmap, length_seqZ. lia.
    - intros i j Hi Hj. rewrite (HcellsS i j Hi Hj). unfold stabilised.
      replace ((1 <? cols X) && (1 <? cols Y)) with true by lia. reflexivity. }
  assert (cols X = 1 \/ cols Y = 1) as Hone by nia.
  destruct (decide (cols X * cols Y = 1)) as [E1|Hne1].
  { assert (cols X = 1 /\ cols Y = 1) as [HM HN] by nia.
    destruct (stable_unit cmath this X Y G HG Hgram HM HN) as (g & Hdata & HS).
    eexists. split; [exact HS|]. rewrite HM, HN.
    repeat split; simpl; try lia.
    intros i j Hi Hj. assert (i = 0 /\ j = 0) as [-> ->] by lia.
    specialize (Hcells 0 0 ltac:(lia) ltac:(lia) I).
    rewrite Hdata, HM in Hcells. simpl in Hcells. injection Hcells as Hg.
    rewrite <- Hg. reflexivity. }
  destruct (stable_vector cmath this X Y G HG Hgram Hone ltac:(nia))
    as (last & Hlast & HS).
  assert (size G = cols X * cols Y) as Hsz by (unfold size; congruence).
  eexists. split; [exact HS|].
  assert (forall i j, 0 <= i < cols X -> 0 <= j < cols Y ->
            0 <= i + j * cols X < cols X * cols Y) as Hidx
    by (intros; now apply index_lt).
  destruct (last =? 1)%float eqn:Elast.
  - repeat split; simpl; try lia.
    + rewrite length_insert. lia.
    + intros i j Hi Hj. specialize (Hidx i j Hi Hj).
      pose proof (Hcells i j Hi Hj I) as Hg. unfold stabilised.
      replace ((1 <? cols X) && (1 <? cols Y)) with false by lia.
      rewrite Hsz. destruct (Z.eqb_spec (i + j * cols X) (cols X * cols Y - 1)) as [E|Hne].
      * rewrite E in Hg |- *. rewrite Hsz, Hg in Hlast.
        injection Hlast as Hl. rewrite Hl, Elast. simpl.
        apply list_lookup_insert_eq. lia.
      * simpl. rewrite list_lookup_insert_ne by lia. exact Hg.
  - repeat split; try lia.
    intros i j Hi Hj. specialize (Hidx i j Hi Hj).
    pose proof (Hcells i j Hi Hj I) as Hg. unfold stabilised.
    replace ((1 <? cols X) && (1 <? cols Y)) with false by lia.
    destruct (Z.eqb_spec (i + j * cols X) (cols X * cols Y - 1)) as [E|Hne];
      [|exact Hg].
    rewrite E in Hg. rewrite Hsz, Hg in Hlast. injection Hlast as Hl.
    rewrite Hl, Elast. simpl. rewrite E, <- Hl. exact Hg.
Qed.

Lemma coeff_stable cmath this X Y S i j :
  rows S = cols X -> cols S = cols Y ->
  (forall i j, 0 <= i < cols X -> 0 <= j < cols Y ->
     data S !! Z.to_nat (i + j * cols X)
     = Some (stabilised (cols X) (cols Y) i j
               (k_value cmath this (column X i) (column Y j)))) ->
  0 <= i < cols X -> 0 <= j < cols Y ->
  returns (coeff S i j) this
    (stabilised (cols X) (cols Y) i j
       (k_value cmath this (column X i) (column Y j))).
Proof.
  intros Hr Hc Hcells Hi Hj. apply coeff_lookup; rewrite ?Hr, ?Hc; auto.
Qed.

(** What [gram_matrix_stable] does on well-formed arguments, by cases. *)
Lemma gram_matrix_stable_cases cmath this X Y :
  wf X -> wf Y -> cols X <= INT_MAX -> cols Y <= INT_MAX ->
  (rows X <> rows Y /\
   gram_matrix_stable cmath X Y this = (Throw mismatch, this)) \/
  (rows X = rows Y /\ empty_vector_shape (cols X) (cols Y) /\
   gram_matrix_stable cmath X Y this = (Throw index_out_of_range, this)) \/
  (rows X = rows Y /\ ~ empty_vector_shape (cols X) (cols Y) /\
   exists G S,
     returns (gram_matrix cmath X Y) this G /\ is_gram cmath this X Y G /\
     returns (gram_matrix_stable cmath X Y) this S /\
     rows S = cols X /\ cols S = cols Y /\ wf S /\
     forall i j, 0 <= i < cols X -> 0 <= j < cols Y ->
       data S !! Z.to_nat (i + j * cols X)
       = Some (stabilised (cols X) (cols Y) i j
                 (k_value cmath this (column X i) (column Y j)))).
Proof.
  intros HX HY HM HN.
  destruct (decide (rows X = rows Y)) as [Hrows|Hrows].
  2:{ left. split; [assumption|]. now apply gram_matrix_stable_mismatch. }
  right.
  destruct (gram_matrix_returns cmath this X Y HX HY Hrows HM HN)
    as (G & HG & Hgram).
  destruct (decide (empty_vector_shape (cols X) (cols Y))) as [Hshape|Hshape].
  - left. repeat (split; [assumption|]).
    exact (stable_empty_vector cmath this X Y G HG Hgram Hshape).
  - right. repeat (split; [assumption|]).
    destruct (stable_cells cmath this X Y G HG Hgram Hshape)
      as (S & HS & Hr & Hc & Hwf & Hcells).
    exists G, S. repeat (split; [assumption|]). exact Hcells.
Qed.

(** X4. On well-formed matrices (column counts fitting an [int]),
    [gram_matrix] and [gram_matrix_stable] each throw an
    [invalid_argument] exactly when the row counts differ. *)
Theorem invalid_argument_iff cmath this X Y :
  wf X -> wf Y -> cols X <= INT_MAX -> cols Y <= INT_MAX ->
  ((exists what, fst (gram_matrix cmath X Y this) = Throw (invalid_argument what))
   <-> rows X <> rows Y) /\
  ((exists what,
      fst (gram_matrix_stable cmath X Y this) = Throw (invalid_argument what))
   <-> rows X <> rows Y).
Proof.
  intros HX HY HM HN. split; split.
  - intros (what & H) Hrows.
    destruct (gram_matrix_returns cmath this X Y HX HY Hrows HM HN) as (G & HG & _).
    rewrite HG in H. discriminate.
  - intros Hrows. eexists. now rewrite (gram_matrix_mismatch cmath this X Y Hrows).
  - intros (what & H) Hrows.
    destruct (gram_matrix_stable_cases cmath this X Y HX HY HM HN)
      as [(? & _)|[(_ & _ & E)|(_ & _ & _ & S & _ & _ & E & _)]];
      [contradiction|rewrite E in H; discriminate|rewrite E in H; discriminate].
  - intros Hrows. eexists.
    now rewrite (gram_matrix_stable_mismatch cmath this X Y Hrows).
Qed.

Lemma invalid_argument_iff_witness :
  ((exists what,
      fst (gram_matrix cmath_ref X_23 (mkMatrix 1 1 [1%float]) (linear_kernel 0))
      = Throw (invalid_argument what))
   <-> rows X_23 <> rows (mkMatrix 1 1 [1%float])) /\
  ((exists what,
      fst (gram_matrix_stable cmath_ref X_23 (mkMatrix 1 1 [1%float]) (linear_kernel 0))
      = Throw (invalid_argument what))
   <-> rows X_23 <> rows (mkMatrix 1 1 [1%float])).
Proof.
  apply (invalid_argument_iff cmath_ref (linear_kernel 0) X_23 (mkMatrix 1 1 [1%float]));
    unfold wf, INT_MAX; simpl; lia.
Defined.

(** X5. With equal row counts, [gram_matrix_stable] fails exactly when the
    Gram matrix is an empty row or an empty column (column counts 0 and 1,
    or 1 and 0), and then on the index assertion of its read of the last
    coefficient; on every other shape it returns. *)
Theorem gram_matrix_stable_fails_iff cmath this X Y :
  wf X -> wf Y -> rows X = rows Y ->
  cols X <= INT_MAX -> cols Y <= INT_MAX ->
  (gram_matrix_stable cmath X Y this = (Throw index_out_of_range, this)
   <-> empty_vector_shape (cols X) (cols Y)) /\
  ((exists S, returns (gram_matrix_stable cmath X Y) this S)
   <-> ~ empty_vector_shape (cols X) (cols Y)).
Proof.
  intros HX HY Hrows HM HN.
  destruct (gram_matrix_stable_cases cmath this X Y HX HY HM HN)
    as [(? & _)|[(_ & Hshape & E)|(_ & Hshape & _ & S & _ & _ & E & _)]];
    [contradiction| |].
  - split; split; try tauto.
    intros (S & HS). unfold returns in HS. rewrite E in HS. discriminate.
  - split; split; try tauto; try (intros; exists S; assumption).
    intros E'. rewrite E in E'. discriminate.
Qed.

Lemma gram_matrix_stable_fails_iff_witness :
  (gram_matrix_stable cmath_ref X_20 X_21 (gaussian_kernel 1)
   = (Throw index_out_of_range, gaussian_kernel 1)
   <-> empty_vector_shape (cols X_20) (cols X_21)) /\
  ((exists S, returns (gram_matrix_stable cmath_ref X_20 X_21) (gaussian_kernel 1) S)
   <-> ~ empty_vector_shape (cols X_20) (cols X_21)).
Proof.
  apply (gram_matrix_stable_fails_iff cmath_ref (gaussian_kernel 1) X_20 X_21);
    unfold wf, INT_MAX; simpl; lia.
Defined.

(** X6. Whatever [gram_matrix_stable] returns on well-formed matrices is a
    well-formed matrix with as many rows as [X] has columns and as many
    columns as [Y] has. *)
Theorem gram_matrix_stable_shape cmath this X Y S :
  wf X -> wf Y -> cols X <= INT_MAX -> cols Y <= INT_MAX ->
  returns (gram_matrix_stable cmath X Y) this S ->
  wf S /\ rows S = cols X /\ cols S = cols Y.
Proof.
  intros HX HY HM HN HS.
  destruct (gram_matrix_stable_cases cmath this X Y HX HY HM HN)
    as [(_ & E)|[(_ & _ & E)|(_ & _ & G & S' & _ & _ & HS' & Hr & Hc & Hwf & _)]].
  - unfold returns in HS. rewrite E in HS. discriminate.
  - unfold returns in HS. rewrite E in HS. discriminate.
  - rewrite (returns_inj _ _ _ _ HS HS'). auto.
Qed.

Lemma gram_matrix_stable_shape_witness :
  wf (mkMatrix 3 2 [1 + 1e-3; 3; 5; 2; 4 + 1e-3; 6]%float) /\
  rows (mkMatrix 3 2 [1 + 1e-3; 3; 5; 2; 4 + 1e-3; 6]%float) = cols X_23 /\
  cols (mkMatrix 3 2 [1 + 1e-3; 3; 5; 2; 4 + 1e-3; 6]%float) = cols X_id2.
Proof.
  apply (gram_matrix_stable_shape cmath_ref (linear_kernel 0) X_23 X_id2);
    try (unfold wf, INT_MAX; simpl; lia).
  reflexivity.
Defined.

(** X7. [gram_matrix_stable] changes no coefficient of the Gram matrix
    other than by adding [1e-3], and adds it only on the main diagonal or
    to a last coefficient that [== 1]: every other coefficient keeps its
    value. *)
Theorem gram_matrix_stable_perturbation cmath this X Y S :
  wf X -> wf Y -> cols X <= INT_MAX -> cols Y <= INT_MAX ->
  returns (gram_matrix_stable cmath X Y) this S ->
  exists G,
    returns (gram_matrix cmath X Y) this G /\
    forall i j, 0 <= i < cols X -> 0 <= j < cols Y ->
      exists g s,
        returns (coeff G i j) this g /\ returns (coeff S i j) this s /\
        (same_value s g \/
         (s = (g + 1e-3)%float /\
          (i = j \/
           ((g =? 1)%float = true /\ i + j * cols X = cols X * cols Y - 1)))).
Proof.
  intros HX HY HM HN HS.
  destruct (gram_matrix_stable_cases cmath this X Y HX HY HM HN)
    as [(_ & E)|[(_ & _ & E)|(_ & _ & G & S' & HG & Hgram & HS' & Hr & Hc & _ & Hcells)]].
  - unfold returns in HS. rewrite E in HS. discriminate.
  - unfold returns in HS. rewrite E in HS. discriminate.
  - rewrite <- (returns_inj _ _ _ _ HS HS') in *. clear HS'.
    exists G. split; [exact HG|]. intros i j Hi Hj.
    exists (k_value cmath this (column X i) (column Y j)).
    eexists. split; [now apply (coeff_gram cmath this X Y)|].
    split; [now apply (coeff_stable cmath this X Y)|].
    unfold stabilised.
    destruct ((1 <? cols X) && (1 <? cols Y)).
    + destruct (Z.eqb_spec i j) as [E|Hne].
      * right. split; [reflexivity|now left].
      * left. apply F64.add_zero_r_same.
    + destruct (Z.eqb_spec (i + j * cols X) (cols X * cols Y - 1)) as [E|Hne];
        simpl; [|now left; left].
      destruct (_ =? 1)%float eqn:E1; [|now left; left].
      right. split; [reflexivity|]. right. now split.
Qed.

Lemma gram_matrix_stable_perturbation_witness :
  exists G,
    returns (gram_matrix cmath_ref X_23 X_id2) (linear_kernel 0) G /\
    forall i j, 0 <= i < cols X_23 -> 0 <= j < cols X_id2 ->
      exists g s,
        returns (coeff G i j) (linear_kernel 0) g /\
        returns (coeff (mkMatrix 3 2 [1 + 1e-3; 3; 5; 2; 4 + 1e-3; 6]%float) i j)
          (linear_kernel 0) s /\
        (same_value s g \/
         (s = (g + 1e-3)%float /\
          (i = j \/
           ((g =? 1)%float = true /\
            i + j * cols X_23 = cols X_23 * cols X_id2 - 1)))).
Proof.
  apply (gram_matrix_stable_perturbation cmath_ref (linear_kernel 0) X_23 X_id2);
    try (unfold wf, INT_MAX; simpl; lia).
  reflexivity.
Defined.

(** ** [gram_matrix], transposed and on empty data *)

(** X8. For each of the three kernels, [gram_matrix(Y,X)] is the transpose
    of [gram_matrix(X,Y)]. *)
Theorem gram_matrix_transpose cmath this X Y :
  wf X -> wf Y -> rows X = rows Y ->
  cols X <= INT_MAX -> cols Y <= INT_MAX ->
  exists G G',
    returns (gram_matrix cmath X Y) this G /\
    returns (gram_matrix cmath Y X) this G' /\
    rows G' = cols G /\ cols G' = rows G /\
    forall i j, 0 <= i < cols X -> 0 <= j < cols Y ->
      exists v, returns (coeff G i j) this v /\ returns (coeff G' j i) this v.
Proof.
  intros HX HY Hrows HM HN.
  destruct (gram_matrix_returns cmath this X Y HX HY Hrows HM HN)
    as (G & HG & Hgram).
  destruct (gram_matrix_returns cmath this Y X HY HX (eq_sym Hrows) HN HM)
    as (G' & HG' & Hgram').
  exists G, G'. split; [exact HG|]. split; [exact HG'|].
  pose proof Hgram as (Hr & Hc & _). pose proof Hgram' as (Hr' & Hc' & _).
  split; [congruence|]. split; [congruence|].
  intros i j Hi Hj.
  exists (k_value cmath this (column X i) (column Y j)). split.
  - now apply (coeff_gram cmath this X Y).
  - rewrite k_value_comm. now apply (coeff_gram cmath this Y X).
Qed.

Lemma gram_matrix_transpose_witness :
  exists G G',
    returns (gram_matrix cmath_ref X_23 X_id2) (gaussian_kernel 1) G /\
    returns (gram_matrix cmath_ref X_id2 X_23) (gaussian_kernel 1) G' /\
    rows G' = cols G /\ cols G' = rows G /\
    forall i j, 0 <= i < cols X_23 -> 0 <= j < cols X_id2 ->
      exists v, returns (coeff G i j) (gaussian_kernel 1) v /\
                returns (coeff G' j i) (gaussian_kernel 1) v.
Proof.
  apply (gram_matrix_transpose cmath_ref (gaussian_kernel 1) X_23 X_id2);
    unfold wf, INT_MAX; simpl; lia.
Defined.

(** X9. When [X] or [Y] has no column, [gram_matrix] returns the empty
    matrix of [cols X] rows and [cols Y] columns, whatever the kernel; and
    [gram_matrix_stable] returns it too, unless the other matrix has
    exactly one column. *)
Theorem gram_matrix_empty cmath this X Y :
  wf X -> wf Y -> rows X = rows Y ->
  cols X <= INT_MAX -> cols Y <= INT_MAX ->
  cols X = 0 \/ cols Y = 0 ->
  returns (gram_matrix cmath X Y) this (mkMatrix (cols X) (cols Y) []) /\
  (cols X <> 1 -> cols Y <> 1 ->
   returns (gram_matrix_stable cmath X Y) this (mkMatrix (cols X) (cols Y) [])).
Proof.
  intros HX HY Hrows HM HN Hempty.
  destruct (gram_matrix_returns cmath this X Y HX HY Hrows HM HN)
    as (G & HG & Hgram).
  pose proof Hgram as (Hr & Hc & (_ & _ & Hlen) & _).
  assert (G = mkMatrix (cols X) (cols Y) []) as EG.
  { destruct G as [r c d]. simpl in *. subst r c.
    destruct d; [reflexivity|]. simpl in Hlen. nia. }
  rewrite EG in HG, Hgram. split; [exact HG|].
  intros H1 H2. apply (stable_empty cmath this X Y _ HG Hgram); [nia|assumption..].
Qed.

Lemma gram_matrix_empty_witness :
  returns (gram_matrix cmath_ref X_20 X_23) (polynomial_kernel 2 1 3)
    (mkMatrix (cols X_20) (cols X_23) []) /\
  (cols X_20 <> 1 -> cols X_23 <> 1 ->
   returns (gram_matrix_stable cmath_ref X_20 X_23) (polynomial_kernel 2 1 3)
     (mkMatrix (cols X_20) (cols X_23) [])).
Proof.
  apply (gram_matrix_empty cmath_ref (polynomial_kernel 2 1 3) X_20 X_23);
    unfold wf, INT_MAX; simpl; lia.
Defined.

(** ** A data set against itself *)

Lemma k_value_gaussian_self cmath s (x : VectorXd) :
  exp cmath (-0)%float = 1%float ->
  Forall (fun a => is_finite a = true) x ->
  (0 <? 2 * s * s)%float = true ->
  k_value cmath (gaussian_kernel s) x x = 1%float.
Proof.
  intros Hexp Hx Hs. simpl.
  rewrite (squared_differences_self x Hx), sum_zeros.
  change (-1 * 0)%float with (-0)%float.
  now rewrite (F64.neg_zero_div_pos _ Hs).
Qed.

Lemma self_shape (M : Z) : ~ empty_vector_shape M M.
Proof. unfold empty_vector_shape. lia. Qed.

(** X10. For every matrix [X], [gram_matrix_stable(X,X)] returns, and
    returns a symmetric matrix, for each of the three kernels. *)
Theorem gram_matrix_stable_self_symmetric cmath this X :
  wf X -> cols X <= INT_MAX ->
  exists S,
    returns (gram_matrix_stable cmath X X) this S /\
    forall i j, 0 <= i < cols X -> 0 <= j < cols X ->
      exists v, returns (coeff S i j) this v /\ returns (coeff S j i) this v.
Proof.
  intros HX HM.
  destruct (gram_matrix_returns cmath this X X HX HX eq_refl HM HM)
    as (G & HG & Hgram).
  destruct (stable_cells cmath this X X G HG Hgram (self_shape _))
    as (S & HS & Hr & Hc & _ & Hcells).
  exists S. split; [exact HS|]. intros i j Hi Hj.
  eexists. split; [now apply (coeff_stable cmath this X X)|].
  replace (stabilised (cols X) (cols X) i j
             (k_value cmath this (column X i) (column X j)))
    with (stabilised (cols X) (cols X) j i
             (k_value cmath this (column X j) (column X i))).
  - now apply (coeff_stable cmath this X X).
  - rewrite (k_value_comm cmath this (column X j)). unfold stabilised.
    rewrite (Z.eqb_sym j i).
    destruct ((1 <? cols X) && (1 <? cols X)) eqn:E; [reflexivity|].
    assert (i = 0 /\ j = 0) as [-> ->] by lia. reflexivity.
Qed.

Lemma gram_matrix_stable_self_symmetric_witness :
  exists S,
    returns (gram_matrix_stable cmath_ref X_23 X_23) (gaussian_kernel 1) S /\
    forall i j, 0 <= i < cols X_23 -> 0 <= j < cols X_23 ->
      exists v, returns (coeff S i j) (gaussian_kernel 1) v /\
                returns (coeff S j i) (gaussian_kernel 1) v.
Proof.
  apply (gram_matrix_stable_self_symmetric cmath_ref (gaussian_kernel 1) X_23);
    unfold wf, INT_MAX; simpl; lia.
Defined.

(** X11. For a matrix [X] of finite coefficients and a Gaussian kernel
    whose computed [2 * s * s] is strictly positive ([exp] mapping zero to
    1), every diagonal coefficient of [gram_matrix_stable(X,X)] is
    [1 + 1e-3], the double [1.001]. *)
Theorem gaussian_stable_diagonal cmath s X :
  exp cmath (-0)%float = 1%float ->
  (0 <? 2 * s * s)%float = true ->
  wf X -> cols X <= INT_MAX ->
  Forall (fun a => is_finite a = true) (data X) ->
  exists S,
    returns (gram_matrix_stable cmath X X) (gaussian_kernel s) S /\
    forall i, 0 <= i < cols X ->
      returns (coeff S i i) (gaussian_kernel s) 1.001%float.
Proof.
  intros Hexp Hs HX HM Hfin.
  destruct (gram_matrix_returns cmath (gaussian_kernel s) X X HX HX eq_refl HM HM)
    as (G & HG & Hgram).
  destruct (stable_cells cmath _ X X G HG Hgram (self_shape _))
    as (S & HS & Hr & Hc & _ & Hcells).
  exists S. split; [exact HS|]. intros i Hi.
  pose proof (coeff_stable cmath _ X X S i i Hr Hc Hcells Hi Hi) as H.
  rewrite (k_value_gaussian_self cmath s (column X i) Hexp) in H;
    [|unfold column; now apply Forall_take, Forall_drop|exact Hs].
  unfold stabilised in H. rewrite Z.eqb_refl in H.
  destruct ((1 <? cols X) && (1 <? cols X)) eqn:E; [exact H|].
  assert (i = 0 /\ cols X = 1) as [-> E1] by lia. rewrite E1 in H. exact H.
Qed.

Lemma gaussian_stable_diagonal_witness :
  exists S,
    returns (gram_matrix_stable cmath_ref X_23 X_23) (gaussian_kernel 2) S /\
    forall i, 0 <= i < cols X_23 ->
      returns (coeff S i i) (gaussian_kernel 2) 1.001%float.
Proof.
  apply (gaussian_stable_diagonal cmath_ref 2 X_23).
  - reflexivity.
  - reflexivity.
  - unfold wf; simpl; lia.
  - unfold INT_MAX; simpl; lia.
  - repeat constructor.
Defined.

(** X12. With the linear kernel of bias [c], the coefficient [(i,j)] of
    [gram_matrix(X,Y)] is the dot product of column [i] of [X] and column
    [j] of [Y], plus [c]. *)
Theorem linear_gram_matrix cmath c X Y :
  wf X -> wf Y -> rows X = rows Y ->
  cols X <= INT_MAX -> cols Y <= INT_MAX ->
  exists G,
    returns (gram_matrix cmath X Y) (linear_kernel c) G /\
    forall i j, 0 <= i < cols X -> 0 <= j < cols Y ->
      returns (coeff G i j) (linear_kernel c)
        (dot_product (column X i) (column Y j) + c)%float.
Proof.
  intros HX HY Hrows HM HN.
  destruct (gram_matrix_returns cmath (linear_kernel c) X Y HX HY Hrows HM HN)
    as (G & HG & Hgram).
  exists G. split; [exact HG|]. intros i j Hi Hj.
  rewrite <- sum_products
    by (rewrite !length_column by assumption; congruence).
  exact (coeff_gram cmath (linear_kernel c) X Y G i j Hgram Hi Hj).
Qed.

Lemma linear_gram_matrix_witness :
  exists G,
    returns (gram_matrix cmath_ref X_23 X_id2) (linear_kernel 0.5) G /\
    forall i j, 0 <= i < cols X_23 -> 0 <= j < cols X_id2 ->
      returns (coeff G i j) (linear_kernel 0.5)
        (dot_product (column X_23 i) (column X_id2 j) + 0.5)%float.
Proof.
  apply (linear_gram_matrix cmath_ref 0.5 X_23 X_id2);
    unfold wf, INT_MAX; simpl; lia.
Defined.
